(** * census_parquet/process_blocks.py: block-level geometry and population tables

    A shallow embedding of [process_blocks.py].  The module builds two
    partitioned tables (block geometries, block populations) from per-state
    Census files: [process_pop] and [process_geo] normalise one state each,
    [process] is the per-unit validator, [main] is the driver that merges the
    per-state outputs and checks the divisions of the merged tables.

    Python values are modelled as follows.
    - [str] is [string]; ordering is code-point lexicographic ([String.compare]).
    - A raised exception is [Err e]; a returned value is [Ok v].
    - The source directories are a read-only record [Sources]; the parquet
      datasets the program writes are an explicit state [Store], threaded
      through the calls.
    - pandas rows of the two pipe-delimited P.L. files are records whose fields
      are the columns the code names.
    - The shapefile attribute table is a list of labelled columns.
    - A dask collection is a list of partitions plus its (optional) divisions. *)

From Stdlib Require Import ZArith Ascii OrderedTypeEx.
From stdpp Require Import base option list gmap strings sorting.

Open Scope Z_scope.

(** ** Python built-ins on [str] *)

Module Py.

(** [c in chars] for a one-character [c]. *)
Fixpoint char_in (c : ascii) (chars : string) : bool :=
  match chars with
  | EmptyString => false
  | String d rest => if Ascii.eqb c d then true else char_in c rest
  end.

(** [s.rstrip(chars)]: [chars] is a SET of characters; the longest trailing
    run of characters of that set is removed. *)
Fixpoint rstrip (chars s : string) : string :=
  match s with
  | EmptyString => EmptyString
  | String c s' =>
      match rstrip chars s' with
      | EmptyString => if char_in c chars then EmptyString else String c EmptyString
      | r => String c r
      end
  end.

(** Scanning loop of [s.replace(old, "")] for a non-empty [old]: [skip] counts
    the characters of the current match that are still to be consumed.  The
    scan is left to right and matches do not overlap. *)
Fixpoint replace_go (old : string) (skip : nat) (s : string) : string :=
  match s with
  | EmptyString => EmptyString
  | String c s' =>
      match skip with
      | S k => replace_go old k s'
      | O =>
          if String.prefix old s
          then replace_go old (Nat.pred (String.length old)) s'
          else String c (replace_go old 0 s')
      end
  end.

(** [s.replace(old, "")]; with an empty [old] nothing is removed. *)
Definition replace_with_empty (old s : string) : string :=
  match old with
  | EmptyString => s
  | _ => replace_go old 0 s
  end.

(** [old in s] (substring test). *)
Fixpoint contains (old s : string) : bool :=
  String.prefix old s ||
  match s with
  | EmptyString => false
  | String _ s' => contains old s'
  end.

(** [s] ends with a character of the set [chars]. *)
Fixpoint ends_in (chars s : string) : bool :=
  match s with
  | EmptyString => false
  | String c EmptyString => char_in c chars
  | String _ s' => ends_in chars s'
  end.

(** Every character of [s] is in the set [chars]. *)
Fixpoint all_in (chars s : string) : bool :=
  match s with
  | EmptyString => true
  | String c s' => char_in c chars && all_in chars s'
  end.

(** [s.split(sep)] for a one-character separator: [cur] is the field being
    read, in reverse. *)
Fixpoint split_go (sep : ascii) (cur : string) (s : string) : list string :=
  match s with
  | EmptyString => [String.rev cur]
  | String c s' =>
      if Ascii.eqb c sep
      then String.rev cur :: split_go sep EmptyString s'
      else split_go sep (String c cur) s'
  end.

Definition split (sep : ascii) (s : string) : list string :=
  split_go sep EmptyString s.

(** [str.lower()] on ASCII letters. *)
Definition lower_char (c : ascii) : ascii :=
  let n := nat_of_ascii c in
  if (Nat.leb 65 n && Nat.leb n 90)%bool then ascii_of_nat (n + 32)%nat else c.

Fixpoint lower (s : string) : string :=
  match s with
  | EmptyString => EmptyString
  | String c s' => String (lower_char c) (lower s')
  end.

End Py.

(** ** Exceptions *)

(** The exceptions the program can raise.  [Unsupported] is no exception of
    Python: it ends the embedding of a call whose frame is indexed by tuples,
    which is not followed through dask and parquet. *)
Inductive PyError : Type :=
| KeyError | IndexError | FileNotFoundError | AssertionError | TypeError | ValueError
| RuntimeError
| Unsupported.

Inductive result (A : Type) : Type :=
| Ok (a : A)
| Err (e : PyError).
Arguments Ok {A} a.
Arguments Err {A} e.

#[global] Instance result_ret : MRet result := fun _ a => Ok a.
#[global] Instance result_bind : MBind result :=
  fun _ _ f m => match m with Ok a => f a | Err e => Err e end.

(** [assert b] *)
Definition py_assert (b : bool) : result unit :=
  if b then Ok tt else Err AssertionError.

(** Evaluation of a list of calls, left to right, stopping at the first raise. *)
Fixpoint traverse {A B} (f : A → result B) (l : list A) : result (list B) :=
  match l with
  | [] => Ok []
  | x :: l' => y ← f x; ys ← traverse f l'; Ok (y :: ys)
  end.

(** ** Key normaliser (process_pop, line 121) *)

Definition GEOID_PREFIX : string := "7500000US".

(** [.str.replace("7500000US", "")] on one identifier.  The pattern has no
    regular-expression metacharacter: it is removed, as a literal, wherever
    it occurs. *)
Definition normalize_key (raw : string) : string :=
  Py.replace_with_empty GEOID_PREFIX raw.

(** ** Ordering of keys and paths *)

Definition str_le (a b : string) : Prop := String.leb a b = true.
Definition str_lt (a b : string) : Prop := String.ltb a b = true.

#[global] Instance str_le_dec a b : Decision (str_le a b).
Proof. unfold str_le. apply _. Defined.
#[global] Instance str_lt_dec a b : Decision (str_lt a b).
Proof. unfold str_lt. apply _. Defined.

(** A row of an indexed frame: the index value and the row's payload. *)
Definition by_key {P : Type} : relation (string * P) :=
  fun r1 r2 => str_le r1.1 r2.1.

#[global] Instance by_key_dec {P} (r1 r2 : string * P) : Decision (by_key r1 r2).
Proof. unfold by_key. apply _. Defined.

(** [df.sort_index()] *)
Definition sort_index {P} (df : list (string * P)) : list (string * P) :=
  merge_sort by_key df.

(** [sorted(paths)]: the paths of one fan-out share their directory, so they
    are ordered as their strings are. *)
Definition sorted (l : list string) : list string := merge_sort str_le l.

(** [index.is_unique] and [index.is_monotonic_increasing] *)
Definition is_unique (index : list string) : bool := bool_decide (NoDup index).
Definition is_monotonic_increasing (index : list string) : bool :=
  bool_decide (Sorted str_le index).

(** ** The lookup table (lines 22-78) *)

Definition statelookup : gmap string string :=
  list_to_map
    [("01", "AL"); ("02", "AK"); ("04", "AZ"); ("05", "AR"); ("06", "CA");
     ("08", "CO"); ("09", "CT"); ("10", "DE"); ("11", "DC"); ("12", "FL");
     ("13", "GA"); ("15", "HI"); ("16", "ID"); ("17", "IL"); ("18", "IN");
     ("19", "IA"); ("20", "KS"); ("21", "KY"); ("22", "LA"); ("23", "ME");
     ("24", "MD"); ("25", "MA"); ("26", "MI"); ("27", "MN"); ("28", "MS");
     ("29", "MO"); ("30", "MT"); ("31", "NE"); ("32", "NV"); ("33", "NH");
     ("34", "NJ"); ("35", "NM"); ("36", "NY"); ("37", "NC"); ("38", "ND");
     ("39", "OH"); ("40", "OK"); ("41", "OR"); ("42", "PA"); ("44", "RI");
     ("45", "SC"); ("46", "SD"); ("47", "TN"); ("48", "TX"); ("49", "UT");
     ("50", "VT"); ("51", "VA"); ("53", "WA"); ("54", "WV"); ("55", "WI");
     ("56", "WY"); ("72", "PR")].

(** [FIPS in statelookup] *)
Definition in_statelookup (FIPS : string) : bool :=
  bool_decide (is_Some (statelookup !! FIPS)).

(** [file.stem.split("_")[2]]; a file is identified by its stem. *)
Definition FIPS_of (stem : string) : result string :=
  match Py.split "_" stem !! 2%nat with
  | Some code => Ok code
  | None => Err IndexError
  end.

(** ** Rows of the two P.L. files *)

(** A row of the geo-header file [<abbr>geo2020.pl]: the columns the code reads. *)
Module Geo.
Record row : Type := {
  SUMLEV : Z;
  LOGRECNO : Z;
  GEOID : string;
  STUSAB : string;
}.
End Geo.

(** A row of the segment-1 file [<abbr>000012020.pl]: the bookkeeping columns
    the code names, and the remaining columns ([counts]: P0010001, ...). *)
Module Seg1.
Record row : Type := {
  FILEID : string;
  STUSAB : string;
  CHARITER : string;
  CIFSN : string;
  LOGRECNO : Z;
  counts : list Z;
}.
End Seg1.

(** A row of the normalised population frame: the GEOID index and the count
    columns; [None] is the all-NaN row of a left row without a match. *)
Definition PopRow : Type := string * option (list Z).

(** Rows of [right] matching one left row [g] in [pd.merge(..., how="left",
    on="LOGRECNO")]: every match in file order, or one unmatched row. *)
Definition merge_one (right : list Seg1.row) (g : Geo.row)
  : list (Geo.row * option Seg1.row) :=
  match filter (fun s => Seg1.LOGRECNO s = Geo.LOGRECNO g) right with
  | [] => [(g, None)]
  | ms => fmap (fun s => (g, Some s)) ms
  end.

(** [pd.merge(left=..., right=seg_1_df, how="left", on="LOGRECNO")] *)
Definition merge_left (left : list Geo.row) (right : list Seg1.row)
  : list (Geo.row * option Seg1.row) :=
  left ≫= merge_one right.

(** [geo_df[geo_df["SUMLEV"] == 750]] (line 113) *)
Definition block_level (geo_df : list Geo.row) : list Geo.row :=
  filter (fun g => Geo.SUMLEV g = 750) geo_df.

(** [.drop(columns=["LOGRECNO", "CHARITER", "STUSAB", "FILEID", "CIFSN"])]
    on one merged row: GEOID and the count columns remain. *)
Definition drop_bookkeeping (m : Geo.row * option Seg1.row) : PopRow :=
  (Geo.GEOID m.1, Seg1.counts <$> m.2).

(** [block_df] as it stands after line 122 of [process_pop]. *)
Definition block_df (geo_df : list Geo.row) (seg_1_df : list Seg1.row)
  : list PopRow :=
  let geo_df := block_level geo_df in
  let merged := merge_left geo_df seg_1_df in
  let block := fmap drop_bookkeeping merged in
  let block := fmap (fun r : PopRow => (normalize_key r.1, r.2)) block in
  sort_index block.

(** ** The shapefile attribute table *)

(** A value of a geometry frame after type coercion. *)
Inductive cell : Type :=
| CStr (s : string)
| CInt (z : Z)
| CFloat (literal : string)
| CGeom (wkt : string).

(** A value as [geopandas.read_file] delivers it for a TIGER block file: a
    character field, or the geometry of the record. *)
Inductive raw_cell : Type :=
| RText (s : string)
| RGeom (wkt : string).

(** The two string-to-number conversions are the interpreter's and pandas';
    they are taken as given: [py_int s] is [int(s)], [pd_to_numeric s] is the
    value [pd.to_numeric] gives the string [s]; [None] is a ValueError. *)
Class Coercion : Type := {
  py_int : string → option Z;
  pd_to_numeric : string → option cell;
}.

(** A frame is its labelled columns, in column order. *)
Definition Frame (C : Type) : Type := list (string * list C).

(** One zip of [TABBLOCK20]: the character fields and the geometry column. *)
Record ShapeFile : Type := {
  fields : list (string * list string);
  geometry : list string;
}.

(** The frame [geopandas.read_file(file, driver="SHP")] returns. *)
Definition frame_of (shp : ShapeFile) : Frame raw_cell :=
  fmap (fun c : string * list string => (c.1, fmap RText c.2)) (fields shp)
  ++ [("geometry", fmap RGeom (geometry shp))].

Definition labels {C} (df : Frame C) : list string := df.*1.

(** [df.drop(columns=cols)]: every label must exist (KeyError otherwise). *)
Definition drop_columns {C} (cols : list string) (df : Frame C) : result (Frame C) :=
  if bool_decide (Forall (fun l => l ∈ labels df) cols)
  then Ok (filter (fun c : string * list C => c.1 ∉ cols) df)
  else Err KeyError.

(** [df.rename(columns=f)] *)
Definition rename {C} (f : string → string) (df : Frame C) : Frame C :=
  fmap (fun c : string * list C => (f c.1, c.2)) df.

Inductive dtype : Type := Category | Int.

(** [dtypes] of [process_geo] (lines 135-140) *)
Definition dtypes : list (string * dtype) :=
  [("STATEFP", Category); ("COUNTYFP", Category); ("TRACTCE", Int); ("BLOCKCE", Int)].

Definition embed (c : raw_cell) : cell :=
  match c with
  | RText s => CStr s
  | RGeom g => CGeom g
  end.

(** Coercion of one value; a categorical column keeps its values. *)
Definition astype_cell `{Coercion} (t : option dtype) (c : raw_cell) : result cell :=
  match t, c with
  | Some Int, RText s =>
      match py_int s with
      | Some z => Ok (CInt z)
      | None => Err ValueError
      end
  | Some Int, RGeom _ => Err TypeError
  | _, _ => Ok (embed c)
  end.

(** [dtypes.get(label)] *)
Definition dtype_of (dts : list (string * dtype)) (label : string) : option dtype :=
  snd <$> head (filter (fun d : string * dtype => d.1 = label) dts).

(** [df.astype(dts)]: every key of [dts] must be a column (KeyError), then the
    columns are coerced in column order. *)
Definition astype `{Coercion} (dts : list (string * dtype)) (df : Frame raw_cell)
  : result (Frame cell) :=
  if bool_decide (Forall (fun d : string * dtype => d.1 ∈ labels df) dts)
  then traverse (fun c : string * list raw_cell =>
                   v ← traverse (astype_cell (dtype_of dts c.1)) c.2; Ok (c.1, v)) df
  else Err KeyError.

(** A frame with its index set.  A label that several columns carry indexes
    the frame by all of them: [index] is the first of these columns and
    [more_index] holds the further ones, so that the key of row [i] is the
    tuple of their [i]-th values; [more_index] is empty when the label selects
    one column. *)
Record IndexedFrame : Type := {
  index : list string;
  more_index : list (list string);
  columns : Frame cell;
}.

(** The key column holds strings; the other branches are not reached from
    [process_geo], where the GEOID column is never coerced. *)
Definition key_of_cell (c : cell) : result string :=
  match c with
  | CStr s => Ok s
  | _ => Err TypeError
  end.

(** [df.set_index(label)]: KeyError without such a column; every column that
    carries the label goes into the index and is dropped from the columns. *)
Definition set_index (label : string) (df : Frame cell) : result IndexedFrame :=
  match filter (fun c : string * list cell => c.1 = label) df with
  | [] => Err KeyError
  | col :: cols =>
      keys ← traverse key_of_cell col.2;
      more ← traverse (fun c : string * list cell => traverse key_of_cell c.2) cols;
      Ok {| index := keys; more_index := more;
            columns := filter (fun c : string * list cell => c.1 ≠ label) df |}
  end.

Definition to_numeric_cell `{Coercion} (c : cell) : result cell :=
  match c with
  | CStr s =>
      match pd_to_numeric s with
      | Some v => Ok v
      | None => Err ValueError
      end
  | CInt z => Ok (CInt z)
  | CFloat x => Ok (CFloat x)
  | CGeom _ => Err TypeError
  end.

(** [gdf[label] = pd.to_numeric(gdf[label])] (lines 149-150) *)
Definition assign_to_numeric `{Coercion} (label : string) (gdf : IndexedFrame)
  : result IndexedFrame :=
  match filter (fun c : string * list cell => c.1 = label) (columns gdf) with
  | [] => Err KeyError
  | [col] =>
      v ← traverse to_numeric_cell col.2;
      Ok {| index := index gdf; more_index := more_index gdf;
            columns := fmap (fun c : string * list cell =>
                              if bool_decide (c.1 = label) then (c.1, v) else c)
                           (columns gdf) |}
  | _ => Err TypeError
  end.

(** A row of the normalised geometry frame: the GEOID index and the labelled
    values of the row. *)
Definition GeoRow : Type := string * list (string * cell).

Definition rows_of (gdf : IndexedFrame) : list GeoRow :=
  imap (fun i k => (k, omap (fun c : string * list cell => pair c.1 <$> c.2 !! i)
                            (columns gdf)))
       (index gdf).

(** ** dask collections and the parquet store *)

(** A dask frame: its partitions in order and its divisions, [None] when they
    are unknown ([known_divisions] is false). *)
Record DaskFrame (P : Type) : Type := {
  partitions : list (list (string * P));
  divisions : option (list string);
}.
Arguments partitions {P} d.
Arguments divisions {P} d.

Definition known_divisions {P} (d : DaskFrame P) : bool :=
  bool_decide (is_Some (divisions d)).

Definition keys {P} (part : list (string * P)) : list string := part.*1.

(** [dd.from_pandas(df, npartitions=1)] (and [dask_geopandas.from_geopandas]):
    the frame is sorted by index unless it already is, and the divisions are the
    first and last index value; an empty frame has unknown divisions. *)
Definition from_pandas {P} (df : list (string * P)) : DaskFrame P :=
  let data := if is_monotonic_increasing (keys df) then df else sort_index df in
  {| partitions := [data];
     divisions := match head (keys data), last (keys data) with
                  | Some lo, Some hi => Some [lo; hi]
                  | _, _ => None
                  end |}.

(** Smallest and largest index value of a partition, as written to the
    parquet statistics of its row group. *)
Definition key_min (ks : list string) : option string :=
  foldr (fun k acc => match acc with
                      | None => Some k
                      | Some m => Some (if String.leb k m then k else m)
                      end) None ks.
Definition key_max (ks : list string) : option string :=
  foldr (fun k acc => match acc with
                      | None => Some k
                      | Some m => Some (if String.leb m k then k else m)
                      end) None ks.

Definition statistics {P} (part : list (string * P)) : option (string * string) :=
  match key_min (keys part), key_max (keys part) with
  | Some lo, Some hi => Some (lo, hi)
  | _, _ => None
  end.

(** Divisions from the statistics of consecutive partitions: each minimum
    must not be below the maximum so far. *)
Fixpoint divisions_go (hi : string) (stats : list (option (string * string)))
  : option (list string) :=
  match stats with
  | [] => Some [hi]
  | None :: _ => None
  | Some (lo', hi') :: rest =>
      if String.leb hi lo' then cons lo' <$> divisions_go hi' rest else None
  end.

Definition divisions_of_statistics (stats : list (option (string * string)))
  : option (list string) :=
  match stats with
  | Some (lo, hi) :: rest => cons lo <$> divisions_go hi rest
  | _ => None
  end.

(** Divisions of [dd.concat(dfs)] when every frame has known divisions: the
    frames are stacked when each frame ends strictly below the start of the
    next one, otherwise the divisions are dropped. *)
Fixpoint stack_divisions (ds : list (list string)) : option (list string) :=
  match ds with
  | [] => None
  | [d] => Some d
  | d :: (d' :: _) as rest =>
      match last d, head d' with
      | Some hi, Some lo =>
          if String.ltb hi lo then app (removelast d) <$> stack_divisions rest else None
      | _, _ => None
      end
  end.

(** [dd.concat(dfs)] along the rows. *)
Definition concat {P} (dfs : list (DaskFrame P)) : result (DaskFrame P) :=
  match dfs with
  | [] => Err ValueError
  | _ => Ok {| partitions := dfs ≫= partitions;
               divisions := mapM divisions dfs ≫= stack_divisions |}
  end.

(** ** The file system *)

(** The source directories [TABBLOCK20/] and [population_stats/]; the program
    only reads them. *)
Record Sources : Type := {
  tabblock20 : list string;
  shapefiles : gmap string ShapeFile;
  summary_table : bool;
  pl_seg1 : gmap string (list Seg1.row);
  pl_geo : gmap string (list Geo.row);
}.

(** The parquet datasets under [tmp/] and [outputs/], by path: a dataset is
    its part files, one per partition. *)
Record Store : Type := {
  pq_pop : gmap string (list (list PopRow));
  pq_geo : gmap string (list (list GeoRow));
}.

Definition empty_store : Store := {| pq_pop := ∅; pq_geo := ∅ |}.

(** [ddf.to_parquet(path)] *)
Definition to_parquet_pop (path : string) (ddf : DaskFrame (option (list Z)))
  (st : Store) : Store :=
  {| pq_pop := <[path := partitions ddf]> (pq_pop st); pq_geo := pq_geo st |}.

(** The store after a geometry frame has been written to [path]. *)
Definition store_geo (path : string) (ddf : DaskFrame (list (string * cell)))
  (st : Store) : Store :=
  {| pq_pop := pq_pop st; pq_geo := <[path := partitions ddf]> (pq_geo st) |}.

(** The schema of a part file: its column labels, each with the kind of its
    values.  It is read off the first row, since all rows of one frame have
    the same columns; a part without rows shows no columns here. *)
Inductive kind : Type := KText | KNumber | KGeometry.

#[global] Instance kind_eq_dec : EqDecision kind.
Proof. solve_decision. Defined.

Definition kind_of (c : cell) : kind :=
  match c with
  | CStr _ => KText
  | CInt _ | CFloat _ => KNumber
  | CGeom _ => KGeometry
  end.

Definition schema (part : list (string * list (string * cell)))
  : option (list (string * kind)) :=
  (fun row : string * list (string * cell) =>
     (fun lv : string * cell => (lv.1, kind_of lv.2)) <$> row.2) <$> head part.

(** The part files of one dataset must agree on their schema, since the shared
    [_metadata] file is built by appending their row groups.  [dd.concat]
    brings every partition to the columns of all the frames, in one order, and
    fills a column that a frame lacks with missing values, whose type is not
    that of the column elsewhere: the part files agree when the frames have
    the same columns. *)
Definition same_columns (s s' : list (string * kind)) : bool :=
  bool_decide (s ⊆ s' ∧ s' ⊆ s).

Definition consistent (parts : list (list (string * list (string * cell)))) : bool :=
  match omap schema parts with
  | [] => true
  | s :: rest => forallb (same_columns s) rest
  end.

(** [gdf.to_parquet(path)] of dask_geopandas: the partitions are written, and
    RuntimeError is raised when they do not agree on their schema. *)
Definition to_parquet_geo (path : string) (ddf : DaskFrame (list (string * cell)))
  (st : Store) : result Store :=
  if consistent (partitions ddf) then Ok (store_geo path ddf st) else Err RuntimeError.

(** [dd.read_parquet(path)]: the partitions are the part files; the divisions
    come from their statistics. *)
Definition read_dataset {P} (stored : option (list (list (string * P))))
  : result (DaskFrame P) :=
  match stored with
  | None => Err FileNotFoundError
  | Some parts =>
      Ok {| partitions := parts;
            divisions := divisions_of_statistics (fmap statistics parts) |}
  end.

Definition read_parquet_pop (st : Store) (path : string)
  : result (DaskFrame (option (list Z))) :=
  read_dataset (pq_pop st !! path).
Definition read_parquet_geo (st : Store) (path : string)
  : result (DaskFrame (list (string * cell))) :=
  read_dataset (pq_geo st !! path).

Definition read_file (src : Sources) (file : string) : result (Frame raw_cell) :=
  match shapefiles src !! file with
  | Some shp => Ok (frame_of shp)
  | None => Err ValueError
  end.

Definition read_excel (src : Sources) : result unit :=
  if summary_table src then Ok tt else Err FileNotFoundError.

(** [pd.read_csv(path, ...)]: the rows of the file as typed records.  The
    embedding covers the files that pandas parses with a text GEOID column
    and integer SUMLEV and LOGRECNO columns, as the P.L. files are; the dtype
    inference of pandas is not part of it. *)
Definition read_csv {A} (files : gmap string (list A)) (path : string) : result (list A) :=
  match files !! path with
  | Some rows => Ok rows
  | None => Err FileNotFoundError
  end.

(** ** The extractors *)

Definition state_1 (ABBR : string) : string :=
  "population_stats/" +:+ Py.lower ABBR +:+ "000012020.pl".
Definition state_geo (ABBR : string) : string :=
  "population_stats/" +:+ Py.lower ABBR +:+ "geo2020.pl".
Definition pop_output (FIPS : string) : string := "tmp/pop/" +:+ FIPS +:+ ".parquet".
Definition geo_output (FIPS : string) : string := "tmp/geo/" +:+ FIPS +:+ ".parquet".

(** [process_pop(file)] (lines 82-131).  The field names read from
    [SUMMARY_TABLE] are those of the records [Seg1.row] and [Geo.row]; the
    column STUSAB dropped from the segment-1 frame at line 104 is not used
    afterwards.  Returns the output path; the dataset written is in the
    store returned with it. *)
Definition process_pop (src : Sources) (st : Store) (file : string)
  : result (string * Store) :=
  FIPS ← FIPS_of file;
  ABBR ← match statelookup !! FIPS with Some abbr => Ok abbr | None => Err KeyError end;
  _ ← read_excel src;
  _ ← read_excel src;
  seg_1_df ← read_csv (pl_seg1 src) (state_1 ABBR);
  geo_df ← read_csv (pl_geo src) (state_geo ABBR);
  let block_df := block_df geo_df seg_1_df in
  _ ← py_assert (is_unique (keys block_df));
  let block_df := from_pandas block_df in
  let output := pop_output FIPS in
  Ok (output, to_parquet_pop output block_df st).

(** The frame [gdf] of [process_geo] after line 150. *)
Definition geo_frame `{Coercion} (df : Frame raw_cell) : result IndexedFrame :=
  df ← drop_columns ["MTFCC20"; "UR20"; "UACE20"; "UATYPE20"; "FUNCSTAT20"; "NAME20"] df;
  let df := rename (Py.rstrip "20") df in
  df ← astype dtypes df;
  gdf ← set_index "GEOID" df;
  gdf ← assign_to_numeric "INTPTLON" gdf;
  assign_to_numeric "INTPTLAT" gdf.

(** [process_geo(file)] (lines 134-157).  A frame that [set_index] indexed by
    tuples is not followed into [from_geopandas]. *)
Definition process_geo `{Coercion} (src : Sources) (st : Store) (file : string)
  : result (string * Store) :=
  df ← read_file src file;
  gdf ← geo_frame df;
  _ ← (if bool_decide (more_index gdf = []) then Ok tt else Err Unsupported);
  let gdf := from_pandas (rows_of gdf) in
  FIPS ← FIPS_of file;
  let output := geo_output FIPS in
  st ← to_parquet_geo output gdf st;
  Ok (output, st).

(** ** The unit validator *)

(** [pd.merge(left, right)] with two [pathlib.Path] arguments, as it is called
    at line 166 ([process_geo] and [process_pop] return their output paths):
    pandas validates each operand and raises TypeError for an object that is
    neither a DataFrame nor a Series. *)
Definition pd_merge_paths (left right : string) : result (list string) :=
  Err TypeError.

(** [len(p)] for a [pathlib.Path]: the type has no length. *)
Definition len_path (p : string) : result nat := Err TypeError.

(** [process(file)] (lines 160-171) *)
Definition process `{Coercion} (src : Sources) (st : Store) (file : string)
  : result (string * string * option string * Store) :=
  '(geo, st) ← process_geo src st file;
  FIPS ← FIPS_of file;
  if in_statelookup FIPS then
    '(pop, st) ← process_pop src st file;
    joined ← pd_merge_paths geo pop;
    n ← len_path geo;
    _ ← py_assert (bool_decide (length joined = n));
    Ok (file, geo, Some pop, st)
  else
    Ok (file, geo, None, st).

(** ** The driver *)

(** [dask.compute] on a list of delayed calls: every task runs, each one reads
    its own sources and writes its own output path; the writes are applied in
    list order. *)
Fixpoint compute (task : Store → string → result (string * Store)) (st : Store)
  (files : list string) : result (list string * Store) :=
  match files with
  | [] => Ok ([], st)
  | file :: rest =>
      '(output, st) ← task st file;
      '(outputs, st) ← compute task st rest;
      Ok (output :: outputs, st)
  end.

(** The files kept by the comprehension of lines 177-181; the condition is
    evaluated when the list is built. *)
Fixpoint covered (files : list string) : result (list string) :=
  match files with
  | [] => Ok []
  | file :: rest =>
      FIPS ← FIPS_of file;
      rest ← covered rest;
      Ok (if in_statelookup FIPS then file :: rest else rest)
  end.

(** Lines 175-191: the output paths of the two fan-outs and the store they
    leave. *)
Definition extract `{Coercion} (src : Sources) (st : Store)
  : result (list string * list string * Store) :=
  let files := tabblock20 src in
  pops ← covered files;
  _ ← py_assert (bool_decide (files ≠ []));
  _ ← py_assert (bool_decide (pops ≠ []));
  '(geo_files, st) ← compute (process_geo src) st files;
  '(pop_files, st) ← compute (process_pop src) st pops;
  Ok (geo_files, pop_files, st).

(** Lines 193 and 194. *)
Definition merge_pop (st : Store) (pop_files : list string)
  : result (DaskFrame (option (list Z))) :=
  traverse (read_parquet_pop st) (sorted pop_files) ≫= concat.
Definition merge_geo (st : Store) (geo_files : list string)
  : result (DaskFrame (list (string * cell))) :=
  traverse (read_parquet_geo st) (sorted geo_files) ≫= concat.

Definition OUT_POP : string := "outputs/census_blocks_population.parquet".
Definition OUT_GEO : string := "outputs/census_blocks_geo.parquet".

(** The geometries of a partition: the values of its [geometry] column. *)
Definition geometries (part : list (string * list (string * cell))) : list string :=
  part ≫= fun row : string * list (string * cell) =>
            omap (fun lv : string * cell =>
                    match lv.2 with
                    | CGeom g => if bool_decide (lv.1 = "geometry") then Some g else None
                    | _ => None
                    end) row.2.

(** [geo.calculate_spatial_partitions()] (line 205): one bound per partition,
    computed from the geometries of the partition and kept here as those
    geometries; the partitions and the divisions stay as they are. *)
Definition calculate_spatial_partitions (geo : DaskFrame (list (string * cell)))
  : list (list string) :=
  geometries <$> partitions geo.

(** The variables of [main] when it returns, and the store it leaves. *)
Record Run : Type := {
  geo_files : list string;
  pop_files : list string;
  pop : DaskFrame (option (list Z));
  geo : DaskFrame (list (string * cell));
  spatial_partitions : list (list string);
  a : DaskFrame (option (list Z));
  b : DaskFrame (list (string * cell));
  final : Store;
}.

(** [main()] (lines 174-216). *)
Definition main `{Coercion} (src : Sources) (st : Store) : result Run :=
  '(geo_files, pop_files, st) ← extract src st;
  pop ← merge_pop st pop_files;
  geo ← merge_geo st geo_files;
  _ ← py_assert (known_divisions pop);
  _ ← py_assert (known_divisions geo);
  let st := to_parquet_pop OUT_POP pop st in
  let spatial := calculate_spatial_partitions geo in
  st ← to_parquet_geo OUT_GEO geo st;
  a ← read_parquet_pop st OUT_POP;
  _ ← py_assert (known_divisions a);
  b ← read_parquet_geo st OUT_GEO;
  _ ← py_assert (known_divisions b);
  Ok {| geo_files := geo_files; pop_files := pop_files; pop := pop; geo := geo;
        spatial_partitions := spatial; a := a; b := b; final := st |}.

(** ** Properties stated about the tables *)

(** Every key of [p] is strictly below every key of [q]. *)
Definition range_below {P} (p q : list (string * P)) : Prop :=
  ∀ k k', k ∈ keys p → k' ∈ keys q → str_lt k k'.

(** The key ranges of the partitions are pairwise disjoint and in increasing
    order: each partition lies below every later one. *)
Definition ranges_increasing {P} (parts : list (list (string * P))) : Prop :=
  StronglySorted range_below parts.

(** The frame [read_parquet] returns for a dataset of one part file. *)
Definition read_one {P} (data : list (string * P)) : DaskFrame P :=
  {| partitions := [data];
     divisions := divisions_of_statistics [statistics data] |}.

(** The output path of one extraction and the dataset found there afterwards,
    starting from an empty store. *)
Definition pop_written (src : Sources) (file : string)
  : result (string * list (list PopRow)) :=
  '(output, st) ← process_pop src empty_store file;
  match pq_pop st !! output with
  | Some parts => Ok (output, parts)
  | None => Err FileNotFoundError
  end.

Definition geo_written `{Coercion} (src : Sources) (file : string)
  : result (string * list (list GeoRow)) :=
  '(output, st) ← process_geo src empty_store file;
  match pq_geo st !! output with
  | Some parts => Ok (output, parts)
  | None => Err FileNotFoundError
  end.

Definition put_pop (w : string * list (list PopRow)) (st : Store) : Store :=
  {| pq_pop := <[w.1 := w.2]> (pq_pop st); pq_geo := pq_geo st |}.
Definition put_geo (w : string * list (list GeoRow)) (st : Store) : Store :=
  {| pq_pop := pq_pop st; pq_geo := <[w.1 := w.2]> (pq_geo st) |}.

(** Every column of the attribute table has one value per record. *)
Definition rectangular (shp : ShapeFile) : Prop :=
  Forall (fun c : string * list string => length c.2 = length (geometry shp)) (fields shp).

(** The sources with one geo-header file replaced. *)
Definition with_pl_geo (path : string) (rows : list Geo.row) (src : Sources) : Sources :=
  {| tabblock20 := tabblock20 src; shapefiles := shapefiles src;
     summary_table := summary_table src; pl_seg1 := pl_seg1 src;
     pl_geo := <[path := rows]> (pl_geo src) |}.

(** ** A sample run: California and the U.S. Virgin Islands *)

Module Sample.

(** Decimal literals, enough for the sample files. *)
Fixpoint digits (acc : Z) (s : string) : option Z :=
  match s with
  | EmptyString => Some acc
  | String c s' =>
      let n := nat_of_ascii c in
      if (Nat.leb 48 n && Nat.leb n 57)%bool
      then digits (10 * acc + Z.of_nat (n - 48)) s'
      else None
  end.

Definition decimal (s : string) : option Z :=
  match s with
  | EmptyString => None
  | _ => digits 0 s
  end.

Definition coercion : Coercion := {|
  py_int := decimal;
  pd_to_numeric := fun s => match s with EmptyString => None | _ => Some (CFloat s) end;
|}.

Definition shapefile (state : string) (blocks : list (string * string)) : ShapeFile :=
  let col (f : string * string → string) := fmap f blocks in
  {| fields :=
       [("STATEFP20", col (fun _ => state)); ("COUNTYFP20", col (fun _ => "001"));
        ("TRACTCE20", col (fun _ => "400100")); ("BLOCKCE20", col fst);
        ("GEOID20", col (fun b => state +:+ "001400100" +:+ b.1));
        ("NAME20", col (fun b => "Block " +:+ b.1)); ("MTFCC20", col (fun _ => "G5040"));
        ("UR20", col (fun _ => "U")); ("UACE20", col (fun _ => "78904"));
        ("UATYPE20", col (fun _ => "U")); ("FUNCSTAT20", col (fun _ => "S"));
        ("ALAND20", col (fun _ => "1000")); ("AWATER20", col (fun _ => "0"));
        ("INTPTLAT20", col (fun _ => "+37.8")); ("INTPTLON20", col (fun _ => "-122.2"))];
     geometry := col snd |}.

Definition ca_zip : string := "tl_2020_06_tabblock20".
Definition vi_zip : string := "tl_2020_78_tabblock20".

Definition ca_shapefile : ShapeFile :=
  shapefile "06" [("1002", "POLYGON b"); ("1000", "POLYGON a"); ("1001", "POLYGON c")].
Definition vi_shapefile : ShapeFile :=
  shapefile "78" [("2000", "POLYGON v"); ("2001", "POLYGON w")].

(** Two records of one block. *)
Definition dup_shapefile : ShapeFile :=
  shapefile "78" [("2000", "POLYGON v"); ("2000", "POLYGON w")].

Definition geo_row (sumlev logrecno : Z) (geoid : string) : Geo.row :=
  {| Geo.SUMLEV := sumlev; Geo.LOGRECNO := logrecno; Geo.GEOID := geoid;
     Geo.STUSAB := "CA" |}.

Definition seg1_row (logrecno : Z) (counts : list Z) : Seg1.row :=
  {| Seg1.FILEID := "PLST"; Seg1.STUSAB := "CA"; Seg1.CHARITER := "000";
     Seg1.CIFSN := "01"; Seg1.LOGRECNO := logrecno; Seg1.counts := counts |}.

Definition state_row : Geo.row := geo_row 40 1 "0400000US06".

(** The three blocks of the shapefile. *)
Definition ca_blocks : list Geo.row :=
  [geo_row 750 2 "7500000US060014001001001";
   geo_row 750 3 "7500000US060014001001000";
   geo_row 750 4 "7500000US060014001001002"].

(** One state-level row, then the blocks. *)
Definition ca_geo : list Geo.row := state_row :: ca_blocks.

(** Record 4 has no attributes; record 99 has no geo-header row. *)
Definition ca_seg1 : list Seg1.row :=
  [seg1_row 1 [39538223]; seg1_row 2 [12]; seg1_row 3 [7]; seg1_row 99 [5]].

Definition sources (zips : list (string * ShapeFile)) (geo_rows : list Geo.row)
  (seg1_rows : list Seg1.row) : Sources :=
  {| tabblock20 := zips.*1;
     shapefiles := list_to_map zips;
     summary_table := true;
     pl_seg1 := {[ state_1 "CA" := seg1_rows ]};
     pl_geo := {[ state_geo "CA" := geo_rows ]} |}.

Definition src0 : Sources :=
  sources [(vi_zip, vi_shapefile); (ca_zip, ca_shapefile)] ca_geo ca_seg1.

(** The geo-header lists a fourth block that the shapefile does not have. *)
Definition src_misaligned : Sources :=
  sources [(vi_zip, vi_shapefile); (ca_zip, ca_shapefile)]
          (ca_geo ++ [geo_row 750 5 "7500000US060014001009999"]) ca_seg1.

(** Two attribute records carry record number 2. *)
Definition src_dup_records : Sources :=
  sources [(vi_zip, vi_shapefile); (ca_zip, ca_shapefile)] ca_geo
          (ca_seg1 ++ [seg1_row 2 [13]]).

Definition src_dup_blocks : Sources :=
  sources [(vi_zip, dup_shapefile); (ca_zip, ca_shapefile)] ca_geo ca_seg1.


End Sample.


(** ** Further notions used in the statements *)

(** [s.count(c)] for a one-character [c]. *)
Fixpoint count_char (c : ascii) (s : string) : nat :=
  match s with
  | EmptyString => 0
  | String d s' => (if Ascii.eqb d c then 1 else 0) + count_char c s'
  end.


(** The columns [process_geo] drops (line 144). *)
Definition dropped_columns : list string :=
  ["MTFCC20"; "UR20"; "UACE20"; "UATYPE20"; "FUNCSTAT20"; "NAME20"].

(** A source directory holding only the Virgin Islands archive, and one
    holding an archive whose name has no region code. *)
Definition only_vi : Sources :=
  Sample.sources [(Sample.vi_zip, Sample.vi_shapefile)] Sample.ca_geo Sample.ca_seg1.
Definition misnamed : Sources :=
  Sample.sources [(Sample.ca_zip, Sample.ca_shapefile); ("tl_2020", Sample.vi_shapefile)]
                 Sample.ca_geo Sample.ca_seg1.

(** * Properties *)

(** ** The error monad *)

Lemma bind_Ok {A B} (m : result A) (f : A → result B) (y : B) :
  m ≫= f = Ok y → ∃ x, m = Ok x ∧ f x = Ok y.
Proof. destruct m as [x|e]; simpl; [eauto | discriminate]. Qed.

Lemma Ok_inj {A} (x y : A) : Ok x = Ok y → x = y.
Proof. by intros [=]. Qed.

Lemma py_assert_Ok (c : bool) (u : unit) : py_assert c = Ok u → c = true.
Proof. destruct c; [reflexivity | discriminate]. Qed.

(** Inversion of a successful sequence of binds in hypothesis [H]. *)
Ltac inv_ok H :=
  repeat match type of H with
    | Ok _ = Ok _ => injection H as H
    | Err _ = Ok _ => discriminate H
    | (_ ≫= _) = Ok _ =>
        let x := fresh "x" in
        let Hx := fresh "Hx" in
        apply bind_Ok in H as (x & Hx & H)
    | (let '(_, _) := ?p in _) = Ok _ => destruct p
    end.

Lemma traverse_Ok_length {A B} (f : A → result B) (l : list A) (ys : list B) :
  traverse f l = Ok ys → length ys = length l.
Proof.
  revert ys. induction l as [|x l IH]; intros ys H; simpl in H.
  - by injection H as <-.
  - inv_ok H. subst ys. simpl. f_equal. eauto.
Qed.

Lemma traverse_Ok_Forall2 {A B} (f : A → result B) (l : list A) (ys : list B) :
  traverse f l = Ok ys → Forall2 (fun x y => f x = Ok y) l ys.
Proof.
  revert ys. induction l as [|x l IH]; intros ys H; simpl in H.
  - injection H as <-. constructor.
  - inv_ok H. subst ys. constructor; eauto.
Qed.

Lemma Forall2_traverse_Ok {A B} (f : A → result B) (l : list A) (ys : list B) :
  Forall2 (fun x y => f x = Ok y) l ys → traverse f l = Ok ys.
Proof. induction 1 as [|x y l ys Hx _ IH]; simpl; [done|]. by rewrite Hx, IH. Qed.

(** ** The order on keys *)

Lemma str_lt_cmp a b : str_lt a b ↔ String.compare a b = Lt.
Proof. unfold str_lt, String.ltb. destruct (String.compare a b); split; congruence. Qed.

Lemma str_le_cmp a b : str_le a b ↔ String.compare a b ≠ Gt.
Proof. unfold str_le, String.leb. destruct (String.compare a b); split; congruence. Qed.

Lemma str_lt_trans a b c : str_lt a b → str_lt b c → str_lt a c.
Proof.
  rewrite !str_lt_cmp. intros H1 H2.
  apply String_as_OT.cmp_lt. eapply String_as_OT.lt_trans; apply String_as_OT.cmp_lt; eauto.
Qed.

Lemma str_lt_irrefl a : ¬ str_lt a a.
Proof.
  rewrite str_lt_cmp. intros H.
  assert (String.compare a a = Eq) as E by by apply String_as_OT.cmp_eq.
  congruence.
Qed.

Lemma str_le_lt_eq a b : str_le a b ↔ a = b ∨ str_lt a b.
Proof.
  rewrite str_le_cmp, str_lt_cmp. split.
  - destruct (String.compare a b) eqn:E; intros H; [left|by right|done].
    by apply String_as_OT.cmp_eq.
  - intros [->|H] E; [|congruence].
    assert (String.compare b b = Eq) by by apply String_as_OT.cmp_eq. congruence.
Qed.

Lemma str_lt_le a b : str_lt a b → str_le a b.
Proof. intros. apply str_le_lt_eq. by right. Qed.

Lemma str_le_refl a : str_le a a.
Proof. apply str_le_lt_eq. by left. Qed.

Lemma str_le_lt_trans a b c : str_le a b → str_lt b c → str_lt a c.
Proof. intros [->|H]%str_le_lt_eq ?; eauto using str_lt_trans. Qed.

Lemma str_lt_le_trans a b c : str_lt a b → str_le b c → str_lt a c.
Proof. intros ? [<-|H]%str_le_lt_eq; eauto using str_lt_trans. Qed.

Lemma str_le_trans a b c : str_le a b → str_le b c → str_le a c.
Proof. intros [->|H]%str_le_lt_eq ?; eauto using str_lt_le, str_lt_le_trans. Qed.

Lemma str_le_total a b : str_le a b ∨ str_le b a.
Proof. apply String.leb_total. Qed.

Lemma str_not_le_lt a b : ¬ str_le a b → str_lt b a.
Proof.
  intros H. destruct (str_le_total a b) as [|[->|?]%str_le_lt_eq]; [done| |done].
  destruct H. apply str_le_refl.
Qed.

#[global] Instance str_le_transitive : Transitive str_le.
Proof. intros a b c. apply str_le_trans. Qed.
#[global] Instance str_le_totality : Total str_le.
Proof. intros a b. apply str_le_total. Qed.
#[global] Instance by_key_transitive {P} : Transitive (@by_key P).
Proof. intros a b c. apply str_le_trans. Qed.
#[global] Instance by_key_totality {P} : Total (@by_key P).
Proof. intros a b. apply str_le_total. Qed.

(** ** [rstrip] with a character set *)

Section rstrip.
Variable chars : string.

Lemma rstrip_all_in t : Py.all_in chars t = true → Py.rstrip chars t = "".
Proof.
  induction t as [|c t IH]; simpl; [done|].
  intros [Hc Ht]%andb_true_iff. by rewrite IH, Hc.
Qed.

Lemma rstrip_app_all_in s t :
  Py.all_in chars t = true → Py.rstrip chars (s +:+ t) = Py.rstrip chars s.
Proof.
  intros Ht. induction s as [|c s IH]; simpl.
  - by apply rstrip_all_in.
  - by rewrite IH.
Qed.

Lemma rstrip_fixed s : Py.ends_in chars s = false → Py.rstrip chars s = s.
Proof.
  induction s as [|c s IH]; simpl; [done|].
  destruct s as [|d s]; simpl in *.
  - by intros ->.
  - intros H. rewrite (IH H). done.
Qed.

Lemma ends_in_rstrip s : Py.ends_in chars (Py.rstrip chars s) = false.
Proof.
  induction s as [|c s IH]; simpl; [done|].
  destruct (Py.rstrip chars s) as [|d r] eqn:E.
  - destruct (Py.char_in c chars) eqn:Hc; simpl; [done|by rewrite Hc].
  - done.
Qed.

Lemma rstrip_split s :
  ∃ run, s = Py.rstrip chars s +:+ run ∧ Py.all_in chars run = true.
Proof.
  induction s as [|c s (run & Hs & Hrun)]; simpl.
  - by exists "".
  - destruct (Py.rstrip chars s) as [|d r] eqn:E.
    + destruct (Py.char_in c chars) eqn:Hc.
      * exists (String c s). split; [done|]. simpl in *. rewrite Hc. by rewrite Hs.
      * exists run. split; [|done]. simpl. by rewrite Hs at 1.
    + exists run. split; [|done]. simpl. by rewrite Hs at 1.
Qed.

Lemma rstrip_shorter s :
  Py.ends_in chars s = true →
  (String.length (Py.rstrip chars s) < String.length s)%nat.
Proof.
  induction s as [|c s IH]; simpl; [done|].
  destruct s as [|d s].
  - simpl. intros ->. simpl. lia.
  - intros H. specialize (IH H).
    destruct (Py.rstrip chars (String d s)) as [|e r].
    + destruct (Py.char_in c chars); simpl in *; lia.
    + simpl in *. lia.
Qed.

End rstrip.

Lemma labels_rename {C} (f : string → string) (df : Frame C) :
  labels (rename f df) = fmap f (labels df).
Proof. unfold labels, rename. induction df as [|c df IH]; simpl; [done|]. by f_equal. Qed.

Lemma string_length_app s t :
  String.length (s +:+ t) = (String.length s + String.length t)%nat.
Proof. induction s; simpl; [done|]. by f_equal. Qed.

(** C10: the column rename of [process_geo] maps every label through
    [rstrip("20")], which removes the longest trailing run of the characters
    '2' and '0'.  A label [stem ++ "20"] whose stem does not end in '0' or '2'
    loses exactly the suffix "20"; when the stem does end in '0' or '2' the
    result is strictly shorter than the stem, as for "NAME2020". *)
Theorem rename_rstrip_is_a_character_set :
  (∀ df : Frame raw_cell,
     labels (rename (Py.rstrip "20") df) = fmap (Py.rstrip "20") (labels df)) ∧
  (∀ name, ∃ run,
     name = Py.rstrip "20" name +:+ run ∧ Py.all_in "20" run = true ∧
     Py.ends_in "20" (Py.rstrip "20" name) = false) ∧
  (∀ stem, Py.ends_in "20" stem = false → Py.rstrip "20" (stem +:+ "20") = stem) ∧
  (∀ stem, Py.ends_in "20" stem = true →
     (String.length (Py.rstrip "20" (stem +:+ "20")) < String.length stem)%nat) ∧
  Py.rstrip "20" "NAME2020" = "NAME".
Proof.
  split; [|split; [|split; [|split]]].
  - intros df. apply labels_rename.
  - intros name. destruct (rstrip_split "20" name) as (run & ? & ?).
    exists run. eauto using ends_in_rstrip.
  - intros stem H. rewrite rstrip_app_all_in by done. by apply rstrip_fixed.
  - intros stem H. rewrite rstrip_app_all_in by done. by apply rstrip_shorter.
  - reflexivity.
Qed.

Lemma rename_rstrip_is_a_character_set_witness :
  Py.rstrip "20" ("INTPTLON" +:+ "20") = "INTPTLON" ∧
  (String.length (Py.rstrip "20" ("P002" +:+ "20")) < String.length "P002")%nat.
Proof.
  destruct rename_rstrip_is_a_character_set as (_ & _ & Hexact & Hmore & _).
  split; [apply Hexact | apply Hmore]; reflexivity.
Defined.

(** ** The key normaliser *)

Section replace.
Variable old : string.

Lemma prefix_app s : String.prefix old (old +:+ s) = true.
Proof.
  induction old as [|c o IH]; simpl; [by destruct s|].
  destruct (ascii_dec c c); [done|congruence].
Qed.

Lemma replace_go_skip t s :
  Py.replace_go old (String.length t) (t +:+ s) = Py.replace_go old 0 s.
Proof.
  induction t as [|c t IH]; simpl; [done|].
  destruct t as [|d t]; [by destruct s|]. apply IH.
Qed.

Lemma replace_go_absent s :
  Py.contains old s = false → Py.replace_go old 0 s = s.
Proof.
  induction s as [|c s IH]; simpl; [done|].
  intros [Hp Hs]%orb_false_iff. rewrite IH by done.
  destruct old as [|d o]; [done|]. simpl in Hp. by rewrite Hp.
Qed.

End replace.

Lemma replace_prefixed (old s : string) :
  Py.replace_with_empty old (old +:+ s) = Py.replace_with_empty old s.
Proof.
  destruct old as [|c o] eqn:E; [done|]. unfold Py.replace_with_empty.
  change (String c o +:+ s) with (String c (o +:+ s)).
  cbn [Py.replace_go].
  change (String c (o +:+ s)) with (String c o +:+ s).
  rewrite prefix_app. cbn [String.length Nat.pred]. apply replace_go_skip.
Qed.

Lemma replace_absent (old s : string) :
  Py.contains old s = false → Py.replace_with_empty old s = s.
Proof. destruct old; [done|]. apply replace_go_absent. Qed.

Lemma normalize_key_strips s :
  Py.contains GEOID_PREFIX s = false → normalize_key (GEOID_PREFIX +:+ s) = s.
Proof.
  intros H. unfold normalize_key. rewrite replace_prefixed. by apply replace_absent.
Qed.

(** C5, as stated, fails: on an identifier that carries the prefix and whose
    remainder contains the prefix again, the result is not the remainder, a
    second normalisation changes it, and two different remainders give one key. *)
Lemma normalize_key_not_idempotent :
  normalize_key "7500000US75000007500000USUS" = "7500000US" ∧
  normalize_key (normalize_key "7500000US75000007500000USUS") = "" ∧
  normalize_key "7500000US06" = normalize_key "7500000US067500000US".
Proof. by vm_compute. Qed.

(** C5 (amended): on an identifier made of the prefix and a remainder that
    does not contain the prefix literal, normalisation returns the remainder,
    a second normalisation changes nothing, and two such identifiers with
    equal keys have equal remainders. *)
Theorem normalize_key_on_block_identifiers (s : string) :
  Py.contains GEOID_PREFIX s = false →
  normalize_key (GEOID_PREFIX +:+ s) = s ∧
  normalize_key (normalize_key (GEOID_PREFIX +:+ s)) = normalize_key (GEOID_PREFIX +:+ s) ∧
  (∀ s', Py.contains GEOID_PREFIX s' = false →
     normalize_key (GEOID_PREFIX +:+ s) = normalize_key (GEOID_PREFIX +:+ s') → s = s').
Proof.
  intros H. rewrite (normalize_key_strips s H). split; [done|]. split.
  - unfold normalize_key. by apply replace_absent.
  - intros s' H'. by rewrite (normalize_key_strips s' H').
Qed.

Lemma normalize_key_on_block_identifiers_witness :
  normalize_key (GEOID_PREFIX +:+ "060014001001000") = "060014001001000" ∧
  normalize_key (normalize_key (GEOID_PREFIX +:+ "060014001001000"))
  = normalize_key (GEOID_PREFIX +:+ "060014001001000").
Proof.
  destruct (normalize_key_on_block_identifiers "060014001001000") as (H1 & H2 & _);
    [reflexivity | by split].
Defined.

(** ** Sorting by index and [from_pandas] *)

Lemma sort_index_Permutation {P} (df : list (string * P)) : sort_index df ≡ₚ df.
Proof. apply merge_sort_Permutation. Qed.

Lemma keys_Permutation {P} (l1 l2 : list (string * P)) : l1 ≡ₚ l2 → keys l1 ≡ₚ keys l2.
Proof. unfold keys. by intros ->. Qed.

Lemma sort_index_Sorted {P} (df : list (string * P)) :
  Sorted str_le (keys (sort_index df)).
Proof.
  unfold keys, sort_index. apply (Sorted_fmap fst by_key str_le); [done|].
  apply Sorted_merge_sort; apply _.
Qed.

Lemma from_pandas_partitions {P} (df : list (string * P)) :
  ∃ data, partitions (from_pandas df) = [data] ∧ data ≡ₚ df ∧
          Sorted str_le (keys data).
Proof.
  unfold from_pandas, is_monotonic_increasing. case_bool_decide as Hs.
  - by exists df.
  - exists (sort_index df). eauto using sort_index_Permutation, sort_index_Sorted.
Qed.

Lemma from_pandas_of_sorted {P} (df : list (string * P)) :
  Sorted str_le (keys df) → partitions (from_pandas df) = [df].
Proof.
  intros Hs. unfold from_pandas, is_monotonic_increasing.
  by rewrite bool_decide_eq_true_2.
Qed.

Lemma strictly_sorted (l : list string) :
  Sorted str_le l → NoDup l → StronglySorted str_lt l.
Proof.
  intros Hs%Sorted_StronglySorted; [|apply _].
  induction Hs as [|x l Hl IH Hx]; intros Hnd; [constructor|].
  apply NoDup_cons in Hnd as [Hnotin Hnd]. constructor; [by apply IH|].
  apply Forall_forall. intros y Hy.
  rewrite Forall_forall in Hx. specialize (Hx y Hy).
  apply str_le_lt_eq in Hx as [->|?]; done.
Qed.

(** ** The left join of [process_pop] *)

Lemma block_level_insert before r after :
  Geo.SUMLEV r ≠ 750 → block_level (before ++ r :: after) = block_level (before ++ after).
Proof.
  intros H. unfold block_level. rewrite !filter_app. f_equal.
  by apply filter_cons_False.
Qed.

Lemma merge_one_elem right g m :
  m ∈ merge_one right g →
  m.1 = g ∧ ∀ s, m.2 = Some s → s ∈ right ∧ Seg1.LOGRECNO s = Geo.LOGRECNO g.
Proof.
  unfold merge_one.
  destruct (filter _ right) as [|s0 ms] eqn:E.
  - intros ->%list_elem_of_singleton. split; [done|]. intros s [=].
  - intros (s' & -> & Hs')%list_elem_of_fmap. split; [done|].
    intros s [= <-]. rewrite <- E in Hs'.
    apply list_elem_of_filter in Hs' as [? ?]. done.
Qed.

Lemma merge_one_unmatched right g :
  (∀ s, s ∈ right → Seg1.LOGRECNO s ≠ Geo.LOGRECNO g) →
  merge_one right g = [(g, None)].
Proof.
  intros H. unfold merge_one.
  destruct (filter _ right) as [|s0 ms] eqn:E; [done|].
  assert (s0 ∈ filter (fun s => Seg1.LOGRECNO s = Geo.LOGRECNO g) right) as Hs
    by (rewrite E; left).
  apply list_elem_of_filter in Hs as [? ?]. by destruct (H s0).
Qed.

Lemma merge_one_single {K} (f : Geo.row → K) right g :
  NoDup ((fun m : Geo.row * option Seg1.row => f m.1) <$> merge_one right g) →
  ∃ o, merge_one right g = [(g, o)].
Proof.
  unfold merge_one. destruct (filter _ right) as [|s0 [|s1 ms]]; simpl; eauto.
  intros Hnd. apply NoDup_cons in Hnd as [Hnotin _]. destruct Hnotin. left.
Qed.

Lemma merge_left_single {K} (f : Geo.row → K) left right :
  NoDup ((fun m : Geo.row * option Seg1.row => f m.1) <$> merge_left left right) →
  (merge_left left right).*1 = left.
Proof.
  unfold merge_left. induction left as [|g left IH]; [done|].
  rewrite bind_cons, !fmap_app. intros [H1 [_ H2]]%NoDup_app.
  destruct (merge_one_single f right g H1) as [o ->]. simpl. f_equal. by apply IH.
Qed.

(** The rows of [block_df] before [sort_index]. *)
Lemma block_df_rows geo_df seg_1_df :
  block_df geo_df seg_1_df ≡ₚ
  (fun m : Geo.row * option Seg1.row =>
     (normalize_key (Geo.GEOID m.1), Seg1.counts <$> m.2))
    <$> merge_left (block_level geo_df) seg_1_df.
Proof.
  unfold block_df. rewrite sort_index_Permutation, <- list_fmap_compose. done.
Qed.

Lemma block_df_keys geo_df seg_1_df :
  keys (block_df geo_df seg_1_df) ≡ₚ
  (fun m : Geo.row * option Seg1.row => normalize_key (Geo.GEOID m.1))
    <$> merge_left (block_level geo_df) seg_1_df.
Proof.
  unfold keys. rewrite block_df_rows, <- list_fmap_compose. done.
Qed.

Lemma block_df_Sorted geo_df seg_1_df : Sorted str_le (keys (block_df geo_df seg_1_df)).
Proof. apply sort_index_Sorted. Qed.

(** What the left join guarantees once the index is unique. *)
Lemma block_df_left_join geo_df seg_1_df :
  let rows := block_df geo_df seg_1_df in
  let kept := block_level geo_df in
  (NoDup (keys rows) →
     length rows = length kept ∧
     keys rows ≡ₚ (fun g => normalize_key (Geo.GEOID g)) <$> kept) ∧
  (∀ g, g ∈ kept →
     (∀ s, s ∈ seg_1_df → Seg1.LOGRECNO s ≠ Geo.LOGRECNO g) →
     (normalize_key (Geo.GEOID g), None) ∈ rows) ∧
  (∀ k c, (k, Some c) ∈ rows →
     ∃ g s, g ∈ kept ∧ s ∈ seg_1_df ∧ Seg1.LOGRECNO s = Geo.LOGRECNO g ∧
            k = normalize_key (Geo.GEOID g) ∧ c = Seg1.counts s).
Proof.
  intros rows kept. split; [|split].
  - intros Hnd. unfold rows in *. rewrite block_df_keys in Hnd.
    pose proof (merge_left_single (fun g => normalize_key (Geo.GEOID g)) _ _ Hnd) as Hfst.
    split.
    + rewrite block_df_rows, length_fmap.
      by rewrite <- (length_fmap fst (merge_left _ _)), Hfst.
    + rewrite block_df_keys. unfold kept.
      rewrite <- Hfst at 2. by rewrite <- list_fmap_compose.
  - intros g Hg Hno. unfold rows. rewrite block_df_rows.
    apply list_elem_of_fmap. exists (g, None). split; [done|].
    apply list_elem_of_bind. exists g. split; [|done].
    rewrite merge_one_unmatched by done. left.
  - intros k c. unfold rows. rewrite block_df_rows.
    intros ([g' o] & [= -> Ho] & Hm)%list_elem_of_fmap.
    apply list_elem_of_bind in Hm as (g & Hm & Hg).
    apply merge_one_elem in Hm as [Hfst Hsnd]. simpl in *. subst g'.
    destruct o as [s|]; [|done]. injection Ho as ->.
    destruct (Hsnd s eq_refl) as [? ?]. by exists g, s.
Qed.

(** ** [process_pop] *)

(** Reduction of the binds of the error monad only. *)
Tactic Notation "rsimpl" :=
  cbn [mbind mret result_bind result_ret py_assert fst snd].
Tactic Notation "rsimpl" "in" hyp(H) :=
  cbn [mbind mret result_bind result_ret py_assert fst snd] in H.

Lemma pq_pop_to_parquet_pop path ddf st :
  pq_pop (to_parquet_pop path ddf st) = <[path := partitions ddf]> (pq_pop st).
Proof. done. Qed.
Lemma pq_geo_store_geo path ddf st :
  pq_geo (store_geo path ddf st) = <[path := partitions ddf]> (pq_geo st).
Proof. done. Qed.
Lemma to_parquet_pop_put path ddf st :
  to_parquet_pop path ddf st = put_pop (path, partitions ddf) st.
Proof. done. Qed.
Lemma store_geo_put path ddf st :
  store_geo path ddf st = put_geo (path, partitions ddf) st.
Proof. done. Qed.

Lemma process_pop_Ok src st file out st' :
  process_pop src st file = Ok (out, st') →
  ∃ FIPS ABBR seg_1_df geo_df,
    FIPS_of file = Ok FIPS ∧ statelookup !! FIPS = Some ABBR ∧
    summary_table src = true ∧
    pl_seg1 src !! state_1 ABBR = Some seg_1_df ∧
    pl_geo src !! state_geo ABBR = Some geo_df ∧
    NoDup (keys (block_df geo_df seg_1_df)) ∧
    out = pop_output FIPS ∧
    st' = to_parquet_pop out (from_pandas (block_df geo_df seg_1_df)) st.
Proof.
  intros H. unfold process_pop, read_excel, read_csv in H.
  destruct (FIPS_of file) as [FIPS|] eqn:E1; rsimpl in H; [|discriminate].
  destruct (statelookup !! FIPS) as [ABBR|] eqn:E2; rsimpl in H; [|discriminate].
  destruct (summary_table src) eqn:E3; rsimpl in H; [|discriminate].
  destruct (pl_seg1 src !! state_1 ABBR) as [seg|] eqn:E4; rsimpl in H; [|discriminate].
  destruct (pl_geo src !! state_geo ABBR) as [geo|] eqn:E5; rsimpl in H; [|discriminate].
  destruct (is_unique (keys (block_df geo seg))) eqn:E6; rsimpl in H; [|discriminate].
  injection H as <- <-. exists FIPS, ABBR, seg, geo.
  apply bool_decide_eq_true in E6. done.
Qed.

Lemma process_pop_run src st file FIPS ABBR seg_1_df geo_df :
  FIPS_of file = Ok FIPS → statelookup !! FIPS = Some ABBR →
  summary_table src = true →
  pl_seg1 src !! state_1 ABBR = Some seg_1_df →
  pl_geo src !! state_geo ABBR = Some geo_df →
  process_pop src st file =
    if is_unique (keys (block_df geo_df seg_1_df))
    then Ok (pop_output FIPS,
             to_parquet_pop (pop_output FIPS) (from_pandas (block_df geo_df seg_1_df)) st)
    else Err AssertionError.
Proof.
  intros H1 H2 H3 H4 H5. unfold process_pop, read_excel, read_csv.
  rewrite H1. rsimpl. rewrite H2. rsimpl. rewrite H3. rsimpl. rewrite H4. rsimpl.
  rewrite H5. rsimpl. by destruct (is_unique _).
Qed.

Lemma process_pop_writes src st file :
  process_pop src st file = w ← pop_written src file; Ok (w.1, put_pop w st).
Proof.
  unfold pop_written.
  destruct (process_pop src empty_store file) as [[out st0]|e] eqn:E.
  - apply process_pop_Ok in E as (FIPS & ABBR & seg & geo & H1 & H2 & H3 & H4 & H5 & H6 & -> & ->).
    rewrite (process_pop_run _ _ _ _ _ _ _ H1 H2 H3 H4 H5).
    unfold is_unique. rewrite bool_decide_eq_true_2 by done.
    rsimpl. rewrite pq_pop_to_parquet_pop, lookup_insert_eq. rsimpl.
    by rewrite to_parquet_pop_put.
  - rsimpl. revert E. unfold process_pop, read_excel, read_csv.
    destruct (FIPS_of file) as [FIPS|]; rsimpl; [|done].
    destruct (statelookup !! FIPS) as [ABBR|]; rsimpl; [|done].
    destruct (summary_table src); rsimpl; [|done].
    destruct (pl_seg1 src !! state_1 ABBR) as [seg|]; rsimpl; [|done].
    destruct (pl_geo src !! state_geo ABBR) as [geo|]; rsimpl; [|done].
    by destruct (is_unique _).
Qed.

Lemma pop_written_Ok src file out parts :
  pop_written src file = Ok (out, parts) →
  ∃ FIPS ABBR seg_1_df geo_df,
    FIPS_of file = Ok FIPS ∧ statelookup !! FIPS = Some ABBR ∧
    pl_seg1 src !! state_1 ABBR = Some seg_1_df ∧
    pl_geo src !! state_geo ABBR = Some geo_df ∧
    NoDup (keys (block_df geo_df seg_1_df)) ∧
    out = pop_output FIPS ∧ parts = [block_df geo_df seg_1_df].
Proof.
  unfold pop_written. intros H. inv_ok H.
  apply process_pop_Ok in Hx as (FIPS & ABBR & seg & geo & H1 & H2 & H3 & H4 & H5 & H6 & -> & ->).
  rewrite pq_pop_to_parquet_pop, lookup_insert_eq in H. injection H as <- <-.
  exists FIPS, ABBR, seg, geo. repeat split; try done.
  apply from_pandas_of_sorted, block_df_Sorted.
Qed.

Lemma merge_one_matched right g s :
  s ∈ right → Seg1.LOGRECNO s = Geo.LOGRECNO g → (g, Some s) ∈ merge_one right g.
Proof.
  intros Hs Hl. unfold merge_one.
  assert (s ∈ filter (fun s => Seg1.LOGRECNO s = Geo.LOGRECNO g) right) as Hin
    by by apply list_elem_of_filter.
  destruct (filter _ right) as [|s0 ms]; [by apply elem_of_nil in Hin|].
  apply list_elem_of_fmap. by exists s.
Qed.

(** A retained row carries the counts of every record that matches it. *)
Lemma block_df_matched geo_df seg_1_df g s :
  g ∈ block_level geo_df → s ∈ seg_1_df → Seg1.LOGRECNO s = Geo.LOGRECNO g →
  (normalize_key (Geo.GEOID g), Some (Seg1.counts s)) ∈ block_df geo_df seg_1_df.
Proof.
  intros Hg Hs Hl. rewrite block_df_rows. apply list_elem_of_fmap.
  exists (g, Some s). split; [done|]. unfold merge_left.
  apply list_elem_of_bind. exists g. split; [by apply merge_one_matched | done].
Qed.

(** C4: the join of the population extractor is driven by the retained
    geo-header rows.  When [process_pop] returns, the dataset it wrote has
    one row per retained geo-header row, keyed by the normalised identifiers
    of those rows; a retained row without an attribute record is present with
    empty attributes; a retained row with an attribute record of its record
    number is present with the counts of that record; and the attributes of
    every row are those of an attribute record whose record number is that of
    a retained row, so a record that matches no retained row is absent. *)
Theorem process_pop_left_join src st file out st' :
  process_pop src st file = Ok (out, st') →
  ∃ FIPS ABBR seg_1_df geo_df rows,
    FIPS_of file = Ok FIPS ∧ statelookup !! FIPS = Some ABBR ∧
    pl_seg1 src !! state_1 ABBR = Some seg_1_df ∧
    pl_geo src !! state_geo ABBR = Some geo_df ∧
    pq_pop st' !! out = Some [rows] ∧
    length rows = length (block_level geo_df) ∧
    keys rows ≡ₚ (fun g => normalize_key (Geo.GEOID g)) <$> block_level geo_df ∧
    (∀ g, g ∈ block_level geo_df →
       (∀ s, s ∈ seg_1_df → Seg1.LOGRECNO s ≠ Geo.LOGRECNO g) →
       (normalize_key (Geo.GEOID g), None) ∈ rows) ∧
    (∀ g s, g ∈ block_level geo_df → s ∈ seg_1_df →
       Seg1.LOGRECNO s = Geo.LOGRECNO g →
       (normalize_key (Geo.GEOID g), Some (Seg1.counts s)) ∈ rows) ∧
    (∀ k c, (k, Some c) ∈ rows →
       ∃ g s, g ∈ block_level geo_df ∧ s ∈ seg_1_df ∧
              Seg1.LOGRECNO s = Geo.LOGRECNO g ∧
              k = normalize_key (Geo.GEOID g) ∧ c = Seg1.counts s).
Proof.
  intros H.
  apply process_pop_Ok in H as (FIPS & ABBR & seg & geo & H1 & H2 & H3 & H4 & H5 & H6 & -> & ->).
  exists FIPS, ABBR, seg, geo, (block_df geo seg).
  destruct (block_df_left_join geo seg) as (Hcount & Hnone & Hsome).
  destruct (Hcount H6) as [Hlen Hkeys].
  repeat split; try done.
  - rewrite pq_pop_to_parquet_pop, lookup_insert_eq. f_equal.
    apply from_pandas_of_sorted, block_df_Sorted.
  - intros g s. apply block_df_matched.
Qed.

Lemma process_pop_left_join_witness :
  ∃ out st',
    process_pop Sample.src0 empty_store Sample.ca_zip = Ok (out, st') ∧
    ∃ FIPS ABBR seg_1_df geo_df rows,
      FIPS_of Sample.ca_zip = Ok FIPS ∧ statelookup !! FIPS = Some ABBR ∧
      pl_seg1 Sample.src0 !! state_1 ABBR = Some seg_1_df ∧
      pl_geo Sample.src0 !! state_geo ABBR = Some geo_df ∧
      pq_pop st' !! out = Some [rows] ∧
      length rows = length (block_level geo_df) ∧
      keys rows ≡ₚ (fun g => normalize_key (Geo.GEOID g)) <$> block_level geo_df ∧
      (∀ g, g ∈ block_level geo_df →
         (∀ s, s ∈ seg_1_df → Seg1.LOGRECNO s ≠ Geo.LOGRECNO g) →
         (normalize_key (Geo.GEOID g), None) ∈ rows) ∧
      (∀ g s, g ∈ block_level geo_df → s ∈ seg_1_df →
         Seg1.LOGRECNO s = Geo.LOGRECNO g →
         (normalize_key (Geo.GEOID g), Some (Seg1.counts s)) ∈ rows) ∧
      (∀ k c, (k, Some c) ∈ rows →
         ∃ g s, g ∈ block_level geo_df ∧ s ∈ seg_1_df ∧
                Seg1.LOGRECNO s = Geo.LOGRECNO g ∧
                k = normalize_key (Geo.GEOID g) ∧ c = Seg1.counts s).
Proof.
  eexists _, _. split; [vm_compute; reflexivity|].
  apply (process_pop_left_join Sample.src0 empty_store Sample.ca_zip).
  vm_compute. reflexivity.
Defined.

(** ** Rows that are not at block level *)

Lemma block_df_insert before r after seg_1_df :
  Geo.SUMLEV r ≠ 750 →
  block_df (before ++ r :: after) seg_1_df = block_df (before ++ after) seg_1_df.
Proof. intros H. unfold block_df. by rewrite block_level_insert. Qed.

Lemma block_df_block_level geo_df seg_1_df (row : PopRow) :
  row ∈ block_df geo_df seg_1_df →
  ∃ g, g ∈ geo_df ∧ Geo.SUMLEV g = 750 ∧ row.1 = normalize_key (Geo.GEOID g).
Proof.
  rewrite block_df_rows. intros (m & -> & Hm)%list_elem_of_fmap.
  apply list_elem_of_bind in Hm as (g & Hm & Hg).
  apply merge_one_elem in Hm as [-> _].
  apply list_elem_of_filter in Hg as [? ?]. by exists g.
Qed.

Lemma compute_ext (t1 t2 : Store → string → result (string * Store)) st files :
  (∀ st file, t1 st file = t2 st file) → compute t1 st files = compute t2 st files.
Proof.
  intros Ht. revert st. induction files as [|file files IH]; intros st; [done|].
  cbn [compute]. rewrite Ht. destruct (t2 st file) as [[out st1]|]; [|done].
  rsimpl. by rewrite IH.
Qed.

Lemma process_pop_with_pl_geo src path before r after st file :
  Geo.SUMLEV r ≠ 750 →
  pl_geo src !! path = Some (before ++ r :: after) →
  process_pop (with_pl_geo path (before ++ after) src) st file = process_pop src st file.
Proof.
  intros Hr Hpath. unfold process_pop, read_excel, read_csv.
  destruct (FIPS_of file) as [FIPS|]; rsimpl; [|done].
  destruct (statelookup !! FIPS) as [ABBR|]; rsimpl; [|done].
  cbn [with_pl_geo summary_table pl_seg1 pl_geo].
  destruct (summary_table src); rsimpl; [|done].
  destruct (pl_seg1 src !! state_1 ABBR) as [seg|]; rsimpl; [|done].
  destruct (decide (path = state_geo ABBR)) as [<-|Hne].
  - rewrite lookup_insert_eq, Hpath. rsimpl. by rewrite block_df_insert.
  - by rewrite lookup_insert_ne.
Qed.

(** C7: only geo-header rows with summary level 750 reach the normalised
    dataset.  Every row of [block_df] stems from a row at block level, and a
    geo-header file with one more row of another summary level gives the same
    [block_df]; removing such a row from one file leaves the result of
    [process_pop] and of [process_geo] for every file, and so the whole run,
    as it was. *)
Theorem non_block_rows_are_excluded `{Coercion} src path before r after :
  Geo.SUMLEV r ≠ 750 →
  pl_geo src !! path = Some (before ++ r :: after) →
  (∀ seg_1_df,
     block_df (before ++ r :: after) seg_1_df = block_df (before ++ after) seg_1_df) ∧
  (∀ geo_df seg_1_df (row : PopRow), row ∈ block_df geo_df seg_1_df →
     ∃ g, g ∈ geo_df ∧ Geo.SUMLEV g = 750 ∧ row.1 = normalize_key (Geo.GEOID g)) ∧
  (∀ st file,
     process_pop (with_pl_geo path (before ++ after) src) st file
     = process_pop src st file) ∧
  (∀ st file,
     process_geo (with_pl_geo path (before ++ after) src) st file
     = process_geo src st file) ∧
  (∀ st, main (with_pl_geo path (before ++ after) src) st = main src st).
Proof.
  intros Hr Hpath.
  assert (∀ st file,
            process_pop (with_pl_geo path (before ++ after) src) st file
            = process_pop src st file) as Hpop
    by eauto using process_pop_with_pl_geo.
  split; [|split; [|split; [|split]]]; try done.
  - intros seg. by apply block_df_insert.
  - apply block_df_block_level.
  - intros st. unfold main, extract. cbn [with_pl_geo tabblock20].
    destruct (covered (tabblock20 src)) as [pops|]; rsimpl; [|done].
    destruct (py_assert _); rsimpl; [|done].
    destruct (py_assert _); rsimpl; [|done].
    rewrite (compute_ext (process_geo (with_pl_geo path (before ++ after) src))
                         (process_geo src)) by done.
    destruct (compute (process_geo src) st (tabblock20 src)) as [[gf st1]|]; rsimpl; [|done].
    by rewrite (compute_ext _ _ _ _ Hpop).
Qed.

Lemma non_block_rows_are_excluded_witness :
  (∀ st file,
     process_pop (with_pl_geo (state_geo "CA") ([] ++ Sample.ca_blocks) Sample.src0) st file
     = process_pop Sample.src0 st file) ∧
  (∀ st,
     main (H := Sample.coercion)
          (with_pl_geo (state_geo "CA") ([] ++ Sample.ca_blocks) Sample.src0) st
     = main (H := Sample.coercion) Sample.src0 st).
Proof.
  destruct (non_block_rows_are_excluded (H := Sample.coercion) Sample.src0
              (state_geo "CA") [] Sample.state_row Sample.ca_blocks)
    as (_ & _ & Hpop & _ & Hmain); [by vm_compute | by vm_compute | by split].
Defined.

(** ** [process_geo] *)

Lemma drop_columns_Ok {C} cols (df df' : Frame C) :
  drop_columns cols df = Ok df' → df' ⊆ df.
Proof.
  unfold drop_columns. case_bool_decide; [|done]. intros [= <-] c.
  by intros [_ ?]%list_elem_of_filter.
Qed.

Lemma rename_elem {C} (f : string → string) (df : Frame C) c :
  c ∈ rename f df → ∃ c0, c0 ∈ df ∧ c.1 = f c0.1 ∧ c.2 = c0.2.
Proof. intros (c0 & -> & ?)%list_elem_of_fmap. by exists c0. Qed.

Lemma traverse_astype_None `{Coercion} (raw : list raw_cell) cells :
  traverse (astype_cell None) raw = Ok cells → cells = embed <$> raw.
Proof.
  revert cells. induction raw as [|c raw IH]; intros cells Hc; cbn [traverse] in Hc.
  - by injection Hc as <-.
  - inv_ok Hc. subst cells. unfold astype_cell in Hx. injection Hx as <-.
    rewrite fmap_cons. f_equal. by apply IH.
Qed.

Lemma traverse_key_of_embed (raw : list raw_cell) ks :
  traverse key_of_cell (embed <$> raw) = Ok ks → raw = RText <$> ks.
Proof.
  revert ks. induction raw as [|c raw IH]; intros ks Hk;
    rewrite ?fmap_cons in Hk; cbn [traverse fmap list_fmap] in Hk.
  - by injection Hk as <-.
  - inv_ok Hk. subst ks. destruct c; [|done]. injection Hx as <-.
    rewrite fmap_cons. f_equal. by apply IH.
Qed.

Lemma astype_elem `{Coercion} dts (df : Frame raw_cell) df' c' :
  astype dts df = Ok df' → c' ∈ df' →
  ∃ c, c ∈ df ∧ c'.1 = c.1 ∧ traverse (astype_cell (dtype_of dts c.1)) c.2 = Ok c'.2.
Proof.
  unfold astype. case_bool_decide; [|done].
  intros Ht%traverse_Ok_Forall2 Hc'.
  apply list_elem_of_lookup in Hc' as [i Hi].
  destruct (Forall2_lookup_r _ _ _ _ _ Ht Hi) as (c & Hc & Hcc').
  exists c. split; [by eapply list_elem_of_lookup_2|].
  inv_ok Hcc'. by subst c'.
Qed.

Lemma set_index_Ok label (df : Frame cell) gdf :
  set_index label df = Ok gdf →
  ∃ col, col ∈ df ∧ col.1 = label ∧ traverse key_of_cell col.2 = Ok (index gdf).
Proof.
  unfold set_index.
  destruct (filter _ df) as [|col cols] eqn:E; [done|].
  intros Hk. inv_ok Hk. subst gdf. exists col.
  assert (col ∈ filter (fun c : string * list cell => c.1 = label) df) as Hin
    by (rewrite E; left).
  apply list_elem_of_filter in Hin as [? ?]. done.
Qed.

Lemma assign_to_numeric_more_index `{Coercion} label gdf gdf' :
  assign_to_numeric label gdf = Ok gdf' → more_index gdf' = more_index gdf.
Proof.
  unfold assign_to_numeric.
  destruct (filter _ (columns gdf)) as [|col [|]]; [done| |done].
  intros Hk. inv_ok Hk. by subst gdf'.
Qed.

Lemma assign_to_numeric_index `{Coercion} label gdf gdf' :
  assign_to_numeric label gdf = Ok gdf' → index gdf' = index gdf.
Proof.
  unfold assign_to_numeric.
  destruct (filter _ (columns gdf)) as [|col [|]]; [done| |done].
  intros Hk. inv_ok Hk. by subst gdf'.
Qed.

Lemma frame_of_elem shp c :
  c ∈ frame_of shp →
  (∃ f, f ∈ fields shp ∧ c = (f.1, RText <$> f.2)) ∨
  c = ("geometry", RGeom <$> geometry shp).
Proof.
  unfold frame_of. intros [Hc|Hc]%elem_of_app.
  - left. apply list_elem_of_fmap in Hc as (f & -> & ?). by exists f.
  - right. by apply list_elem_of_singleton in Hc.
Qed.

#[global] Instance RText_inj : Inj (=) (=) RText.
Proof. by intros ?? [=]. Qed.

(** The index of the geometry frame is the column of the shapefile whose
    label the rename turns into GEOID. *)
Lemma geo_frame_index `{Coercion} shp gdf :
  geo_frame (frame_of shp) = Ok gdf →
  ∃ f, f ∈ fields shp ∧ Py.rstrip "20" f.1 = "GEOID" ∧ f.2 = index gdf.
Proof.
  unfold geo_frame. intros Hg. inv_ok Hg.
  apply assign_to_numeric_index in Hg. apply assign_to_numeric_index in Hx2.
  apply set_index_Ok in Hx1 as (col & Hcol & Hlabel & Hkeys).
  destruct (astype_elem _ _ _ _ Hx0 Hcol) as (c & Hc & Hl & Hcells).
  rewrite <- Hl, Hlabel in Hcells. change (dtype_of dtypes "GEOID") with (@None dtype) in Hcells.
  apply traverse_astype_None in Hcells. rewrite Hcells in Hkeys.
  apply traverse_key_of_embed in Hkeys.
  apply rename_elem in Hc as (c0 & Hc0 & Hl0 & Hv0).
  apply drop_columns_Ok in Hx. apply Hx in Hc0.
  apply frame_of_elem in Hc0 as [(f & Hf & ->)| ->].
  - exists f. split; [done|]. simpl in *. split; [congruence|].
    rewrite Hv0 in Hkeys. apply (inj (fmap RText)) in Hkeys. congruence.
  - simpl in Hl0. rewrite Hl in Hlabel. rewrite Hl0 in Hlabel. by vm_compute in Hlabel.
Qed.

Lemma keys_rows_of gdf : keys (rows_of gdf) = index gdf.
Proof.
  unfold keys, rows_of. rewrite fmap_imap.
  rewrite (imap_ext _ (const id) (index gdf)) by done.
  rewrite imap_const. apply list_fmap_id.
Qed.

Lemma consistent_one part : consistent [part] = true.
Proof. unfold consistent. cbn [omap list_omap]. by destruct (schema part). Qed.

(** A frame of one partition is always written. *)
Lemma to_parquet_geo_from_pandas path (df : list GeoRow) st :
  to_parquet_geo path (from_pandas df) st = Ok (store_geo path (from_pandas df) st).
Proof.
  unfold to_parquet_geo.
  destruct (from_pandas_partitions df) as (data & -> & _). by rewrite consistent_one.
Qed.

Lemma to_parquet_geo_Ok path ddf st st' :
  to_parquet_geo path ddf st = Ok st' →
  consistent (partitions ddf) = true ∧ st' = store_geo path ddf st.
Proof. unfold to_parquet_geo. destruct (consistent _); [by intros [= <-] | done]. Qed.

Lemma process_geo_Ok `{Coercion} src st file out st' :
  process_geo src st file = Ok (out, st') →
  ∃ shp gdf FIPS,
    shapefiles src !! file = Some shp ∧ geo_frame (frame_of shp) = Ok gdf ∧
    FIPS_of file = Ok FIPS ∧ out = geo_output FIPS ∧
    st' = store_geo out (from_pandas (rows_of gdf)) st.
Proof.
  unfold process_geo, read_file. intros Hp.
  destruct (shapefiles src !! file) as [shp|] eqn:E1; rsimpl in Hp; [|done].
  destruct (geo_frame (frame_of shp)) as [gdf|] eqn:E2; rsimpl in Hp; [|done].
  destruct (bool_decide (more_index gdf = [])); rsimpl in Hp; [|done].
  destruct (FIPS_of file) as [FIPS|] eqn:E3; rsimpl in Hp; [|done].
  rewrite to_parquet_geo_from_pandas in Hp. rsimpl in Hp.
  injection Hp as <- <-. by exists shp, gdf, FIPS.
Qed.

(** C9 does not hold of the code: [process_geo] takes the index as the file
    gives it and never checks it.  For an archive with two records of one
    block it returns and stores a dataset whose index holds that identifier
    twice, where [process_pop] raises AssertionError for a key that occurs
    twice; and the run over that archive completes with the identifier twice in
    the merged geometry table. *)
Lemma process_geo_keeps_duplicate_keys :
  (∃ out st' rows,
     process_geo (H := Sample.coercion) Sample.src_dup_blocks empty_store Sample.vi_zip
     = Ok (out, st') ∧
     pq_geo st' !! out = Some [rows] ∧
     length rows = length (geometry Sample.dup_shapefile) ∧
     keys rows = ["780014001002000"; "780014001002000"] ∧
     ¬ NoDup (keys rows)) ∧
  process_pop Sample.src_dup_records empty_store Sample.ca_zip = Err AssertionError ∧
  (∃ r, main (H := Sample.coercion) Sample.src_dup_blocks empty_store = Ok r ∧
        ¬ NoDup (partitions (geo r) ≫= keys) ∧
        ¬ NoDup (partitions (b r) ≫= keys)).
Proof.
  split; [|split].
  - eexists _, _, _. split; [vm_compute; reflexivity|].
    split; [vm_compute; reflexivity|]. split; [reflexivity|]. split; [reflexivity|].
    intros [Hnotin _]%NoDup_cons. apply Hnotin. left.
  - vm_compute. reflexivity.
  - eexists. split; [vm_compute; reflexivity|].
    split; apply (bool_decide_unpack _); vm_compute; exact I.
Qed.


Lemma process_geo_writes `{Coercion} src st file :
  process_geo src st file = w ← geo_written src file; Ok (w.1, put_geo w st).
Proof.
  unfold geo_written, process_geo, read_file.
  destruct (shapefiles src !! file) as [shp|]; rsimpl; [|done].
  destruct (geo_frame (frame_of shp)) as [gdf|]; rsimpl; [|done].
  destruct (bool_decide (more_index gdf = [])); rsimpl; [|done].
  destruct (FIPS_of file) as [FIPS|]; rsimpl; [|done].
  rewrite !to_parquet_geo_from_pandas. rsimpl.
  rewrite pq_geo_store_geo, lookup_insert_eq. rsimpl.
  by rewrite store_geo_put.
Qed.

Lemma geo_written_Ok `{Coercion} src file out parts :
  geo_written src file = Ok (out, parts) →
  ∃ FIPS data, FIPS_of file = Ok FIPS ∧ out = geo_output FIPS ∧ parts = [data].
Proof.
  unfold geo_written. intros Hw. inv_ok Hw.
  apply process_geo_Ok in Hx as (shp & gdf & FIPS & _ & _ & HF & -> & ->).
  rewrite pq_geo_store_geo, lookup_insert_eq in Hw.
  destruct (from_pandas_partitions (rows_of gdf)) as (data & Hdata & _).
  rewrite Hdata in Hw. injection Hw as <- <-. by exists FIPS, data.
Qed.

(** ** The fan-out *)

Section compute_writes.
Context {D : Type}.
Variable core : string → result (string * D).
Variable put : string * D → Store → Store.
Variable task : Store → string → result (string * Store).
Hypothesis task_writes :
  ∀ st file, task st file = w ← core file; Ok (w.1, put w st).

Lemma compute_writes st files :
  compute task st files
  = ws ← traverse core files; Ok (ws.*1, foldl (fun st w => put w st) st ws).
Proof.
  revert st. induction files as [|file files IH]; intros st; [done|].
  cbn [compute traverse]. rewrite task_writes.
  destruct (core file) as [w|]; rsimpl; [|done].
  rewrite IH. destruct (traverse core files) as [ws|]; rsimpl; done.
Qed.

End compute_writes.

Lemma foldl_insert_lookup {V} (m : gmap string V) (ws : list (string * V)) p :
  p ∈ ws.*1 →
  ∃ d, (p, d) ∈ ws ∧ foldl (fun m w => <[w.1 := w.2]> m) m ws !! p = Some d.
Proof.
  induction ws as [|[q d] ws IH] using rev_ind; [by intros ?%elem_of_nil|].
  rewrite fmap_app, foldl_app. simpl. intros Hp.
  destruct (decide (q = p)) as [->|Hne].
  - exists d. rewrite lookup_insert_eq. split; [|done]. apply elem_of_app. right. left.
  - rewrite lookup_insert_ne by done.
    apply elem_of_app in Hp as [Hp|Hp%list_elem_of_singleton]; [|done].
    destruct (IH Hp) as (d' & ? & ?). exists d'. split; [|done].
    apply elem_of_app. by left.
Qed.

Lemma pq_geo_foldl_put_geo st ws :
  pq_geo (foldl (fun st w => put_geo w st) st ws)
  = foldl (fun m w => <[w.1 := w.2]> m) (pq_geo st) ws ∧
  pq_pop (foldl (fun st w => put_geo w st) st ws) = pq_pop st.
Proof. revert st. induction ws as [|w ws IH]; intros st; [done|]. simpl. by rewrite !(proj1 (IH _)), !(proj2 (IH _)). Qed.

Lemma pq_pop_foldl_put_pop st ws :
  pq_pop (foldl (fun st w => put_pop w st) st ws)
  = foldl (fun m w => <[w.1 := w.2]> m) (pq_pop st) ws ∧
  pq_geo (foldl (fun st w => put_pop w st) st ws) = pq_geo st.
Proof. revert st. induction ws as [|w ws IH]; intros st; [done|]. simpl. by rewrite !(proj1 (IH _)), !(proj2 (IH _)). Qed.

(** ** Statistics and divisions *)

Lemma key_min_None ks : key_min ks = None → ks = [].
Proof. destruct ks as [|k ks]; [done|]. simpl. by destruct (key_min ks). Qed.

Lemma key_max_None ks : key_max ks = None → ks = [].
Proof. destruct ks as [|k ks]; [done|]. simpl. by destruct (key_max ks). Qed.

Lemma key_min_Some ks lo :
  key_min ks = Some lo → lo ∈ ks ∧ Forall (str_le lo) ks.
Proof.
  revert lo. induction ks as [|k ks IH]; intros lo; [done|]. simpl.
  destruct (key_min ks) as [m|] eqn:E.
  - destruct (IH m eq_refl) as [Hm Hall]. intros [= <-].
    destruct (String.leb k m) eqn:Hk.
    + split; [left|]. constructor; [apply str_le_refl|].
      eapply Forall_impl; [exact Hall|]. intros x Hx. by apply str_le_trans with m.
    + split; [by right|]. constructor; [|done].
      apply str_lt_le, str_not_le_lt. unfold str_le. by rewrite Hk.
  - apply key_min_None in E as ->. intros [= <-]. split; [left|].
    constructor; [apply str_le_refl|constructor].
Qed.

Lemma key_max_Some ks hi :
  key_max ks = Some hi → hi ∈ ks ∧ Forall (fun k => str_le k hi) ks.
Proof.
  revert hi. induction ks as [|k ks IH]; intros hi; [done|]. simpl.
  destruct (key_max ks) as [m|] eqn:E.
  - destruct (IH m eq_refl) as [Hm Hall]. intros [= <-].
    destruct (String.leb m k) eqn:Hk.
    + split; [left|]. constructor; [apply str_le_refl|].
      eapply Forall_impl; [exact Hall|]. intros x Hx. by apply str_le_trans with m.
    + split; [by right|]. constructor; [|done].
      apply str_lt_le, str_not_le_lt. unfold str_le. by rewrite Hk.
  - apply key_max_None in E as ->. intros [= <-]. split; [left|].
    constructor; [apply str_le_refl|constructor].
Qed.

Lemma statistics_Some {P} (data : list (string * P)) lo hi :
  statistics data = Some (lo, hi) →
  lo ∈ keys data ∧ str_le lo hi ∧
  Forall (fun k => str_le lo k ∧ str_le k hi) (keys data).
Proof.
  unfold statistics.
  destruct (key_min (keys data)) as [lo'|] eqn:Emin; [|done].
  destruct (key_max (keys data)) as [hi'|] eqn:Emax; [|done].
  intros [= -> ->].
  apply key_min_Some in Emin as [Hlo Hmin]. apply key_max_Some in Emax as [Hhi Hmax].
  split; [done|]. rewrite Forall_forall in Hmin, Hmax. split; [by apply Hmin|].
  apply Forall_forall. intros k Hk. split; [by apply Hmin | by apply Hmax].
Qed.

Lemma statistics_nonempty {P} (data : list (string * P)) :
  data ≠ [] → is_Some (statistics data).
Proof.
  intros Hne. unfold statistics.
  destruct (key_min (keys data)) as [lo|] eqn:Emin.
  - destruct (key_max (keys data)) as [hi|] eqn:Emax; [done|].
    apply key_max_None in Emax. by destruct data.
  - apply key_min_None in Emin. by destruct data.
Qed.

Lemma divisions_read_one {P} (data : list (string * P)) :
  divisions (read_one data)
  = (fun s : string * string => [s.1; s.2]) <$> statistics data.
Proof. unfold read_one. simpl. by destruct (statistics data) as [[lo hi]|]. Qed.

Lemma partitions_read_one {P} (datas : list (list (string * P))) :
  (read_one <$> datas) ≫= partitions = datas.
Proof. induction datas as [|d datas IH]; [done|]. rewrite fmap_cons, bind_cons, IH. done. Qed.

Lemma stack_divisions_pair lo hi d' rest :
  stack_divisions ([lo; hi] :: d' :: rest)
  = match head d' with
    | Some lo' =>
        if String.ltb hi lo' then cons lo <$> stack_divisions (d' :: rest) else None
    | None => None
    end.
Proof. done. Qed.

Lemma stack_divisions_head lo hi rest out :
  stack_divisions ([lo; hi] :: rest) = Some out → head out = Some lo.
Proof.
  destruct rest as [|d' rest]; [by intros [= <-]|].
  rewrite stack_divisions_pair. destruct (head d'); [|done].
  destruct (String.ltb hi s); [|done].
  destruct (stack_divisions (d' :: rest)); [|done]. by intros [= <-].
Qed.

(** Stacking frames of one partition each: when the divisions of the
    concatenation are known, every partition lies below all later ones. *)
Lemma stack_ranges {P} (datas : list (list (string * P))) out :
  mapM divisions (read_one <$> datas) ≫= stack_divisions = Some out →
  ranges_increasing datas ∧
  Forall (fun q => q ≠ []) datas ∧
  ∃ lo, head out = Some lo ∧ Forall (fun q => Forall (str_le lo) (keys q)) datas.
Proof.
  revert out. induction datas as [|d1 datas IH]; intros out Hout; [done|].
  rewrite fmap_cons in Hout. cbn [mapM] in Hout.
  rewrite divisions_read_one in Hout.
  destruct (statistics d1) as [[lo hi]|] eqn:Es; [|done].
  apply statistics_Some in Es as (Hlo & Hlohi & Hd1).
  assert (d1 ≠ []) as Hne1 by (intros ->; by apply elem_of_nil in Hlo).
  assert (Forall (str_le lo) (keys d1)) as Hd1lo
    by (eapply Forall_impl; [exact Hd1|]; by intros ? [? ?]).
  destruct (mapM divisions (read_one <$> datas)) as [ds|] eqn:Em; [|done].
  change (stack_divisions ([lo; hi] :: ds) = Some out) in Hout.
  destruct datas as [|d2 datas].
  - injection Em as <-. injection Hout as <-.
    split; [repeat constructor|]. split; [by constructor|].
    exists lo. split; [done|]. by constructor.
  - rewrite fmap_cons in Em. cbn [mapM] in Em. rewrite divisions_read_one in Em.
    destruct (statistics d2) as [[lo2 hi2]|]; [|done].
    destruct (mapM divisions (read_one <$> datas)) as [ds2|]; [|done].
    injection Em as <-.
    rewrite stack_divisions_pair in Hout. cbn [head] in Hout.
    destruct (String.ltb hi lo2) eqn:Hlt; [|done].
    destruct (stack_divisions ([lo2; hi2] :: ds2)) as [out'|] eqn:Eout'; [|done].
    injection Hout as <-.
    destruct (IH out' Eout') as (Hri & Hne & lo' & Hhead & Hall).
    rewrite (stack_divisions_head _ _ _ _ Eout') in Hhead. injection Hhead as <-.
    split; [|split].
    + constructor; [done|]. apply Forall_forall. intros q Hq k k' Hk Hk'.
      rewrite Forall_forall in Hd1. rewrite Forall_forall in Hall.
      destruct (Hd1 k Hk) as [_ Hkhi].
      specialize (Hall q Hq). rewrite Forall_forall in Hall.
      eapply str_le_lt_trans; [exact Hkhi|].
      eapply str_lt_le_trans; [exact Hlt|]. by apply Hall.
    + by constructor.
    + exists lo. split; [done|]. constructor; [done|].
      eapply Forall_impl; [exact Hall|]. intros q Hq.
      eapply Forall_impl; [exact Hq|]. intros k Hk.
      apply str_le_trans with lo2; [|done].
      apply str_le_trans with hi; [done|]. by apply str_lt_le.
Qed.

Lemma str_ltb_leb a b : String.ltb a b = true → String.leb a b = true.
Proof. apply str_lt_le. Qed.

(** The statistics written for stacked partitions give back the divisions. *)
Lemma divisions_go_of_stack {P} (datas : list (list (string * P))) ds lo hi out :
  mapM divisions (read_one <$> datas) = Some ds →
  stack_divisions ([lo; hi] :: ds) = Some out →
  cons lo <$> divisions_go hi (statistics <$> datas) = Some out.
Proof.
  revert ds lo hi out. induction datas as [|d2 datas IH]; intros ds lo hi out Em Hout.
  - injection Em as <-. by injection Hout as <-.
  - rewrite fmap_cons in Em. cbn [mapM] in Em. rewrite divisions_read_one in Em.
    destruct (statistics d2) as [[lo2 hi2]|] eqn:Es2; [|done].
    destruct (mapM divisions (read_one <$> datas)) as [ds2|] eqn:Em2; [|done].
    injection Em as <-.
    rewrite stack_divisions_pair in Hout. cbn [head] in Hout.
    destruct (String.ltb hi lo2) eqn:Hlt; [|done].
    destruct (stack_divisions ([lo2; hi2] :: ds2)) as [out'|] eqn:Eout'; [|done].
    injection Hout as <-.
    rewrite fmap_cons, Es2. cbn [divisions_go].
    rewrite (str_ltb_leb _ _ Hlt), (IH ds2 lo2 hi2 out' eq_refl Eout'). done.
Qed.

Lemma divisions_of_stack {P} (datas : list (list (string * P))) out :
  mapM divisions (read_one <$> datas) ≫= stack_divisions = Some out →
  divisions_of_statistics (statistics <$> datas) = Some out.
Proof.
  destruct datas as [|d1 datas]; [done|]. intros Hout.
  rewrite fmap_cons in Hout. cbn [mapM] in Hout. rewrite divisions_read_one in Hout.
  destruct (statistics d1) as [[lo hi]|] eqn:Es; [|done].
  destruct (mapM divisions (read_one <$> datas)) as [ds|] eqn:Em; [|done].
  change (stack_divisions ([lo; hi] :: ds) = Some out) in Hout.
  rewrite fmap_cons, Es. cbn [divisions_of_statistics].
  by apply divisions_go_of_stack with ds.
Qed.

Lemma ranges_NoDup {P} (datas : list (list (string * P))) :
  ranges_increasing datas → Forall (fun q => q ≠ []) datas → NoDup datas.
Proof.
  induction 1 as [|d datas Hs IH Hd]; intros Hne; [constructor|].
  apply Forall_cons in Hne as [Hdne Hne]. constructor; [|by apply IH].
  intros Hin. rewrite Forall_forall in Hd. specialize (Hd d Hin).
  destruct d as [|[k v] d]; [done|].
  apply (str_lt_irrefl k). apply Hd; left.
Qed.

(** ** Reading the unit datasets back *)

Section merge.
Context {P : Type}.
Variable m : gmap string (list (list (string * P))).

Lemma read_units paths frames :
  Forall (fun p => ∃ data, m !! p = Some [data]) paths →
  traverse (fun p => read_dataset (m !! p)) paths = Ok frames →
  ∃ datas, frames = read_one <$> datas ∧
           Forall2 (fun p data => m !! p = Some [data]) paths datas.
Proof.
  revert frames. induction paths as [|p paths IH]; intros frames Hall Ht.
  - injection Ht as <-. by exists [].
  - apply Forall_cons in Hall as [(data & Hp) Hall]. cbn [traverse] in Ht.
    rewrite Hp in Ht. cbn [read_dataset] in Ht. rsimpl in Ht.
    destruct (traverse _ paths) as [frames'|] eqn:E; rsimpl in Ht; [|done].
    injection Ht as <-. destruct (IH frames' Hall eq_refl) as (datas & -> & HF).
    exists (data :: datas). split; [done|]. by constructor.
Qed.

Lemma merge_units paths g :
  Forall (fun p => ∃ data, m !! p = Some [data]) paths →
  traverse (fun p => read_dataset (m !! p)) paths ≫= concat = Ok g →
  ∃ datas,
    Forall2 (fun p data => m !! p = Some [data]) paths datas ∧
    partitions g = datas ∧
    divisions g = mapM divisions (read_one <$> datas) ≫= stack_divisions.
Proof.
  intros Hall Hg. apply bind_Ok in Hg as (frames & Ht & Hc).
  destruct (read_units _ _ Hall Ht) as (datas & -> & HF).
  exists datas. split; [done|]. unfold concat in Hc.
  destruct datas as [|d datas']; [done|]. injection Hc as <-.
  split; [apply (partitions_read_one (d :: datas')) | done].
Qed.

Lemma units_NoDup paths datas :
  Forall2 (fun p data => m !! p = Some [data]) paths datas →
  NoDup datas → NoDup paths.
Proof.
  induction 1 as [|p data paths datas Hp HF IH]; [constructor|].
  intros [Hnotin Hnd]%NoDup_cons. constructor; [|by apply IH].
  intros Hin. apply list_elem_of_lookup in Hin as [i Hi].
  destruct (Forall2_lookup_l _ _ _ _ _ HF Hi) as (data' & Hdata' & Hp').
  rewrite Hp in Hp'. injection Hp' as <-.
  apply Hnotin. by eapply list_elem_of_lookup_2.
Qed.

Lemma units_elem paths datas p data :
  Forall2 (fun p data => m !! p = Some [data]) paths datas →
  p ∈ paths → m !! p = Some [data] → data ∈ datas.
Proof.
  intros HF Hin Hp. apply list_elem_of_lookup in Hin as [i Hi].
  destruct (Forall2_lookup_l _ _ _ _ _ HF Hi) as (data' & Hdata' & Hp').
  rewrite Hp in Hp'. injection Hp' as <-. by eapply list_elem_of_lookup_2.
Qed.

Lemma units_elem_inv paths datas data :
  Forall2 (fun p data => m !! p = Some [data]) paths datas →
  data ∈ datas → ∃ p, p ∈ paths ∧ m !! p = Some [data].
Proof.
  intros HF Hin. apply list_elem_of_lookup in Hin as [i Hi].
  destruct (Forall2_lookup_r _ _ _ _ _ HF Hi) as (p & Hp & Hm).
  exists p. split; [by eapply list_elem_of_lookup_2 | done].
Qed.

End merge.

Lemma sorted_Permutation l : sorted l ≡ₚ l.
Proof. apply merge_sort_Permutation. Qed.

(** ** The driver *)

Lemma covered_Ok files pops :
  covered files = Ok pops →
  ∀ file, file ∈ pops ↔
          file ∈ files ∧ ∃ FIPS, FIPS_of file = Ok FIPS ∧ in_statelookup FIPS = true.
Proof.
  revert pops. induction files as [|f files IH]; intros pops Hc file.
  - injection Hc as <-. split; [by intros ?%elem_of_nil | by intros [?%elem_of_nil _]].
  - cbn [covered] in Hc.
    destruct (FIPS_of f) as [F|] eqn:EF; rsimpl in Hc; [|done].
    destruct (covered files) as [rest|] eqn:Er; rsimpl in Hc; [|done].
    apply Ok_inj in Hc as <-. specialize (IH rest eq_refl file).
    destruct (in_statelookup F) eqn:Ein.
    + rewrite !elem_of_cons, IH. split.
      * intros [->|[? ?]]; [|by auto]. split; [by left|]. by exists F.
      * intros [[->|?] ?]; [by left|]. right. done.
    + rewrite IH, elem_of_cons. split; [intros [? ?]; by auto|].
      intros [[->|?] (F' & HF' & Hin)]; [|by eauto]. congruence.
Qed.

Lemma extract_Ok `{Coercion} src st gf pf st1 :
  extract src st = Ok (gf, pf, st1) →
  ∃ pops gs ps,
    covered (tabblock20 src) = Ok pops ∧ pops ≠ [] ∧
    Forall2 (fun file w => geo_written src file = Ok w) (tabblock20 src) gs ∧
    Forall2 (fun file w => pop_written src file = Ok w) pops ps ∧
    gf = gs.*1 ∧ pf = ps.*1 ∧
    pq_geo st1 = foldl (fun m w => <[w.1 := w.2]> m) (pq_geo st) gs ∧
    pq_pop st1 = foldl (fun m w => <[w.1 := w.2]> m) (pq_pop st) ps.
Proof.
  unfold extract. intros He.
  destruct (covered (tabblock20 src)) as [pops|] eqn:Ec; rsimpl in He; [|done].
  destruct (bool_decide (tabblock20 src ≠ [])) eqn:Hfiles; rsimpl in He; [|done].
  destruct (bool_decide (pops ≠ [])) eqn:Hpops; rsimpl in He; [|done].
  apply bool_decide_eq_true in Hpops.
  rewrite (compute_writes (geo_written src) put_geo) in He
    by (intros; apply process_geo_writes).
  destruct (traverse (geo_written src) (tabblock20 src)) as [gs|] eqn:Eg;
    rsimpl in He; [|done].
  rewrite (compute_writes (pop_written src) put_pop) in He
    by (intros; apply process_pop_writes).
  destruct (traverse (pop_written src) pops) as [ps|] eqn:Ep; rsimpl in He; [|done].
  injection He as <- <- <-.
  exists pops, gs, ps. repeat split; try done.
  - by apply traverse_Ok_Forall2.
  - by apply traverse_Ok_Forall2.
  - rewrite (proj2 (pq_pop_foldl_put_pop _ _)). apply pq_geo_foldl_put_geo.
  - rewrite (proj1 (pq_pop_foldl_put_pop _ _)).
    by rewrite (proj2 (pq_geo_foldl_put_geo _ _)).
Qed.

Lemma main_Ok `{Coercion} src st r :
  main src st = Ok r →
  ∃ st1,
    extract src st = Ok (geo_files r, pop_files r, st1) ∧
    merge_pop st1 (pop_files r) = Ok (pop r) ∧
    merge_geo st1 (geo_files r) = Ok (geo r) ∧
    known_divisions (pop r) = true ∧ known_divisions (geo r) = true ∧
    final r = store_geo OUT_GEO (geo r) (to_parquet_pop OUT_POP (pop r) st1) ∧
    read_parquet_pop (final r) OUT_POP = Ok (a r) ∧
    read_parquet_geo (final r) OUT_GEO = Ok (b r) ∧
    known_divisions (a r) = true ∧ known_divisions (b r) = true.
Proof.
  unfold main. intros Hm.
  destruct (extract src st) as [[[gf pf] st1]|] eqn:He; rsimpl in Hm; [|done].
  destruct (merge_pop st1 pf) as [p|] eqn:Hp; rsimpl in Hm; [|done].
  destruct (merge_geo st1 gf) as [g|] eqn:Hg; rsimpl in Hm; [|done].
  destruct (known_divisions p) eqn:Kp; rsimpl in Hm; [|done].
  destruct (known_divisions g) eqn:Kg; rsimpl in Hm; [|done].
  destruct (to_parquet_geo OUT_GEO g _) as [st2|] eqn:Hw; rsimpl in Hm; [|done].
  apply to_parquet_geo_Ok in Hw as [_ ->].
  destruct (read_parquet_pop _ OUT_POP) as [ra|] eqn:Ha; rsimpl in Hm; [|done].
  destruct (known_divisions ra) eqn:Ka; rsimpl in Hm; [|done].
  destruct (read_parquet_geo _ OUT_GEO) as [rb|] eqn:Hb; rsimpl in Hm; [|done].
  destruct (known_divisions rb) eqn:Kb; rsimpl in Hm; [|done].
  apply Ok_inj in Hm as <-. exists st1. cbn [geo_files pop_files pop geo a b final].
  by repeat split.
Qed.

(** The write of the merged geometry table has returned in a completed run. *)
Lemma main_Ok_write `{Coercion} src st r :
  main src st = Ok r →
  consistent (partitions (geo r)) = true ∧
  spatial_partitions r = calculate_spatial_partitions (geo r).
Proof.
  unfold main. intros Hm.
  destruct (extract src st) as [[[gf pf] st1]|] eqn:He; rsimpl in Hm; [|done].
  destruct (merge_pop st1 pf) as [p|] eqn:Hp; rsimpl in Hm; [|done].
  destruct (merge_geo st1 gf) as [g|] eqn:Hg; rsimpl in Hm; [|done].
  destruct (known_divisions p) eqn:Kp; rsimpl in Hm; [|done].
  destruct (known_divisions g) eqn:Kg; rsimpl in Hm; [|done].
  destruct (to_parquet_geo OUT_GEO g _) as [st2|] eqn:Hw; rsimpl in Hm; [|done].
  apply to_parquet_geo_Ok in Hw as [Hcons ->].
  destruct (read_parquet_pop _ OUT_POP) as [ra|] eqn:Ha; rsimpl in Hm; [|done].
  destruct (known_divisions ra) eqn:Ka; rsimpl in Hm; [|done].
  destruct (read_parquet_geo _ OUT_GEO) as [rb|] eqn:Hb; rsimpl in Hm; [|done].
  destruct (known_divisions rb) eqn:Kb; rsimpl in Hm; [|done].
  apply Ok_inj in Hm as <-. by cbn [geo spatial_partitions].
Qed.

Lemma written_units {V} (m0 : gmap string (list V)) (ws : list (string * list V)) :
  Forall (fun w => ∃ data, w.2 = [data]) ws →
  Forall (fun p => ∃ data,
            foldl (fun m w => <[w.1 := w.2]> m) m0 ws !! p = Some [data]) ws.*1.
Proof.
  intros Hws. apply Forall_forall. intros p Hp.
  destruct (foldl_insert_lookup m0 ws p Hp) as (d & Hd & Hl).
  rewrite Forall_forall in Hws. destruct (Hws _ Hd) as (data & Hdata).
  simpl in Hdata. subst d. by exists data.
Qed.

Lemma geo_written_units `{Coercion} src files gs :
  Forall2 (fun file w => geo_written src file = Ok w) files gs →
  Forall (fun w : string * list (list GeoRow) => ∃ data, w.2 = [data]) gs.
Proof.
  intros HF. apply Forall_forall. intros [p d] Hw.
  apply list_elem_of_lookup in Hw as [i Hi].
  destruct (Forall2_lookup_r _ _ _ _ _ HF Hi) as (file & _ & Hfile).
  apply geo_written_Ok in Hfile as (F & data & _ & _ & ->). by exists data.
Qed.

Lemma pop_written_units src files ps :
  Forall2 (fun file w => pop_written src file = Ok w) files ps →
  Forall (fun w : string * list (list PopRow) => ∃ data, w.2 = [data]) ps.
Proof.
  intros HF. apply Forall_forall. intros [p d] Hw.
  apply list_elem_of_lookup in Hw as [i Hi].
  destruct (Forall2_lookup_r _ _ _ _ _ HF Hi) as (file & _ & Hfile).
  apply pop_written_Ok in Hfile as (F & A & seg & geo & _ & _ & _ & _ & _ & _ & ->).
  by eexists.
Qed.

(** The merge of unit datasets, once its divisions are known. *)
Lemma merge_known {P} (m : gmap string (list (list (string * P)))) paths g :
  Forall (fun p => ∃ data, m !! p = Some [data]) paths →
  traverse (fun p => read_dataset (m !! p)) (sorted paths) ≫= concat = Ok g →
  known_divisions g = true →
  Forall2 (fun p data => m !! p = Some [data]) (sorted paths) (partitions g) ∧
  ranges_increasing (partitions g) ∧
  NoDup paths ∧
  divisions_of_statistics (statistics <$> partitions g) = divisions g.
Proof.
  intros Hunits Hg Hk.
  assert (Forall (fun p => ∃ data, m !! p = Some [data]) (sorted paths)) as Hunits'
    by by rewrite sorted_Permutation.
  destruct (merge_units m _ _ Hunits' Hg) as (datas & HF & Hparts & Hdiv).
  apply bool_decide_eq_true in Hk as [out Hout]. rewrite Hdiv in Hout.
  destruct (stack_ranges _ _ Hout) as (Hri & Hne & _).
  rewrite Hparts, Hdiv, Hout. repeat split; try done.
  - rewrite <- (sorted_Permutation paths).
    eapply units_NoDup; [exact HF|]. by apply ranges_NoDup.
  - by apply divisions_of_stack.
Qed.

(** What a completed run has established. *)
Lemma main_Ok_merged `{Coercion} src st r :
  main src st = Ok r →
  ∃ st1 pops gs ps,
    covered (tabblock20 src) = Ok pops ∧
    Forall2 (fun file w => geo_written src file = Ok w) (tabblock20 src) gs ∧
    Forall2 (fun file w => pop_written src file = Ok w) pops ps ∧
    geo_files r = gs.*1 ∧ pop_files r = ps.*1 ∧
    pq_geo st1 = foldl (fun m w => <[w.1 := w.2]> m) (pq_geo st) gs ∧
    pq_pop st1 = foldl (fun m w => <[w.1 := w.2]> m) (pq_pop st) ps ∧
    (Forall2 (fun p data => pq_pop st1 !! p = Some [data])
             (sorted (pop_files r)) (partitions (pop r)) ∧
     ranges_increasing (partitions (pop r)) ∧ NoDup (pop_files r) ∧
     divisions_of_statistics (statistics <$> partitions (pop r)) = divisions (pop r)) ∧
    (Forall2 (fun p data => pq_geo st1 !! p = Some [data])
             (sorted (geo_files r)) (partitions (geo r)) ∧
     ranges_increasing (partitions (geo r)) ∧ NoDup (geo_files r) ∧
     divisions_of_statistics (statistics <$> partitions (geo r)) = divisions (geo r)).
Proof.
  intros Hm.
  apply main_Ok in Hm as (st1 & He & Hp & Hg & Kp & Kg & _).
  apply extract_Ok in He as (pops & gs & ps & Hc & _ & HFg & HFp & Egf & Epf & Eg & Ep).
  exists st1, pops, gs, ps. repeat (split; [done|]). split.
  - apply (merge_known (pq_pop st1)); [|exact Hp|exact Kp].
    rewrite Ep, Epf. by apply written_units, (pop_written_units src pops).
  - apply (merge_known (pq_geo st1)); [|exact Hg|exact Kg].
    rewrite Eg, Egf. by apply written_units, (geo_written_units src (tabblock20 src)).
Qed.











Lemma read_after_write_pop path ddf st :
  read_parquet_pop (to_parquet_pop path ddf st) path
  = Ok {| partitions := partitions ddf;
          divisions := divisions_of_statistics (statistics <$> partitions ddf) |}.
Proof. unfold read_parquet_pop. by rewrite pq_pop_to_parquet_pop, lookup_insert_eq. Qed.

Lemma read_after_write_geo path ddf st :
  read_parquet_geo (store_geo path ddf st) path
  = Ok {| partitions := partitions ddf;
          divisions := divisions_of_statistics (statistics <$> partitions ddf) |}.
Proof. unfold read_parquet_geo. by rewrite pq_geo_store_geo, lookup_insert_eq. Qed.

(** The run after the two assertions on the merged tables: it returns when
    the write of the geometry table does, with the two tables read back as
    they were written, and raises RuntimeError otherwise. *)
Lemma main_after_assertions `{Coercion} src st gf pf st1 p g :
  extract src st = Ok (gf, pf, st1) →
  merge_pop st1 pf = Ok p → merge_geo st1 gf = Ok g →
  known_divisions p = true → known_divisions g = true →
  (consistent (partitions g) = true →
   main src st
   = Ok {| geo_files := gf; pop_files := pf; pop := p; geo := g;
           spatial_partitions := calculate_spatial_partitions g;
           a := {| partitions := partitions p; divisions := divisions p |};
           b := {| partitions := partitions g; divisions := divisions g |};
           final := store_geo OUT_GEO g (to_parquet_pop OUT_POP p st1) |}) ∧
  (consistent (partitions g) = false → main src st = Err RuntimeError).
Proof.
  intros He Hp Hg Kp Kg. pose proof He as He'.
  apply extract_Ok in He' as (pops & gs & ps & Hc & _ & HFg & HFp & Egf & Epf & Eg & Ep).
  assert (divisions_of_statistics (statistics <$> partitions p) = divisions p) as Hdp.
  { apply (merge_known (pq_pop st1) pf); [|exact Hp|exact Kp].
    rewrite Ep, Epf. by apply written_units, (pop_written_units src pops). }
  assert (divisions_of_statistics (statistics <$> partitions g) = divisions g) as Hdg.
  { apply (merge_known (pq_geo st1) gf); [|exact Hg|exact Kg].
    rewrite Eg, Egf. by apply written_units, (geo_written_units src (tabblock20 src)). }
  unfold main. rewrite He. rsimpl. rewrite Hp. rsimpl. rewrite Hg. rsimpl.
  rewrite Kp, Kg. rsimpl. unfold to_parquet_geo.
  split; intros ->; rsimpl; [|done].
  change (read_parquet_pop (store_geo OUT_GEO g (to_parquet_pop OUT_POP p st1)) OUT_POP)
    with (read_parquet_pop (to_parquet_pop OUT_POP p st1) OUT_POP).
  rewrite read_after_write_pop, read_after_write_geo. rsimpl.
  rewrite Hdp, Hdg.
  change (known_divisions {| partitions := partitions p; divisions := divisions p |})
    with (known_divisions p).
  change (known_divisions {| partitions := partitions g; divisions := divisions g |})
    with (known_divisions g).
  rewrite Kp. rsimpl. rewrite Kg. rsimpl. done.
Qed.



Lemma NoDup_fst_functional {A B} (l : list (A * B)) x y1 y2 :
  NoDup l.*1 → (x, y1) ∈ l → (x, y2) ∈ l → y1 = y2.
Proof.
  induction l as [|[a b] l IH]; [by intros _ ?%elem_of_nil|].
  rewrite fmap_cons. intros [Hnotin Hnd]%NoDup_cons H1 H2.
  apply elem_of_cons in H1 as [[= -> ->]|H1]; apply elem_of_cons in H2 as [[= ->]|H2];
    try done.
  - destruct Hnotin. apply list_elem_of_fmap. by exists (a, y2).
  - destruct Hnotin. apply list_elem_of_fmap. by exists (a, y1).
  - by apply IH.
Qed.

(** C6: in a run that completes, a file whose region code is not in the
    lookup table is not among the files handed to the population extractor;
    every partition of the merged population table is the dataset written
    for a file whose code is in the table; and the dataset the geometry
    extractor wrote for the file is one of the partitions of the merged
    geometry table. *)
Theorem uncovered_units_are_geometry_only `{Coercion} src st r file FIPS :
  main src st = Ok r →
  file ∈ tabblock20 src →
  FIPS_of file = Ok FIPS →
  in_statelookup FIPS = false →
  (∃ pops, covered (tabblock20 src) = Ok pops ∧ (file ∉ pops) ∧
           Forall2 (fun f p => ∃ parts, pop_written src f = Ok (p, parts))
                   pops (pop_files r)) ∧
  (∀ part, part ∈ partitions (pop r) →
     ∃ file' FIPS',
       file' ∈ tabblock20 src ∧ FIPS_of file' = Ok FIPS' ∧
       in_statelookup FIPS' = true ∧
       pop_written src file' = Ok (pop_output FIPS', [part])) ∧
  (∃ part, geo_written src file = Ok (geo_output FIPS, [part]) ∧
           geo_output FIPS ∈ geo_files r ∧ part ∈ partitions (geo r)).
Proof.
  intros Hm Hfile HF Hin.
  destruct (main_Ok_merged _ _ _ Hm)
    as (st1 & pops & gs & ps & Hc & HFg & HFp & Egf & Epf & Eg & Ep & Hpop & Hgeo).
  destruct Hpop as (Hpu & _ & _ & _). destruct Hgeo as (Hgu & _ & Hgnd & _).
  pose proof (covered_Ok _ _ Hc) as Hcov.
  split; [|split].
  - exists pops. split; [done|]. split.
    + intros (_ & F' & HF' & Hin')%Hcov. congruence.
    + rewrite Epf. apply Forall2_fmap_r.
      eapply Forall2_impl; [exact HFp|]. intros f [p parts] Hw. by exists parts.
  - intros part Hpart.
    destruct (units_elem_inv _ _ _ _ Hpu Hpart) as (p & Hp & Hlook).
    rewrite sorted_Permutation, Epf in Hp.
    rewrite Ep in Hlook.
    destruct (foldl_insert_lookup (pq_pop st) ps p Hp) as (d & Hd & Hl).
    pose proof (eq_trans (eq_sym Hl) Hlook) as Hd'. apply (inj Some) in Hd'. subst d.
    apply list_elem_of_lookup in Hd as [i Hi].
    destruct (Forall2_lookup_r _ _ _ _ _ HFp Hi) as (file' & Hfile' & Hw).
    apply list_elem_of_lookup_2 in Hfile'.
    apply Hcov in Hfile' as (Hmem & F' & HF' & Hin').
    exists file', F'. repeat split; try done.
    pose proof Hw as Hw'.
    apply pop_written_Ok in Hw' as (F'' & A & seg & geo & HF'' & _ & _ & _ & _ & Hout & _).
    rewrite HF' in HF''. apply Ok_inj in HF'' as <-. by rewrite <- Hout.
  - apply list_elem_of_lookup in Hfile as [i Hi].
    destruct (Forall2_lookup_l _ _ _ _ _ HFg Hi) as ([p d] & Hw & Hgw).
    apply list_elem_of_lookup_2 in Hw.
    pose proof Hgw as Hgw'.
    apply geo_written_Ok in Hgw' as (F' & part & HF' & -> & ->).
    assert (F' = FIPS) as -> by congruence.
    assert (geo_output FIPS ∈ geo_files r) as Hmem.
    { rewrite Egf. apply list_elem_of_fmap. by exists (geo_output FIPS, [part]). }
    exists part. repeat split; try done.
    eapply (units_elem (pq_geo st1)); [exact Hgu| by rewrite sorted_Permutation |].
    rewrite Eg. rewrite Egf in Hmem, Hgnd.
    destruct (foldl_insert_lookup (pq_geo st) gs _ Hmem) as (d & Hd & Hl).
    etrans; [exact Hl|]. f_equal. by eapply NoDup_fst_functional.
Qed.

Lemma uncovered_units_are_geometry_only_witness :
  ∃ r, main (H := Sample.coercion) Sample.src0 empty_store = Ok r ∧
       ((∃ pops, covered (tabblock20 Sample.src0) = Ok pops ∧ (Sample.vi_zip ∉ pops) ∧
                 Forall2 (fun f p => ∃ parts, pop_written Sample.src0 f = Ok (p, parts))
                         pops (pop_files r)) ∧
        (∀ part, part ∈ partitions (pop r) →
           ∃ file' FIPS',
             file' ∈ tabblock20 Sample.src0 ∧ FIPS_of file' = Ok FIPS' ∧
             in_statelookup FIPS' = true ∧
             pop_written Sample.src0 file' = Ok (pop_output FIPS', [part])) ∧
        (∃ part, geo_written (H := Sample.coercion) Sample.src0 Sample.vi_zip
                 = Ok (geo_output "78", [part]) ∧
                 geo_output "78" ∈ geo_files r ∧ part ∈ partitions (geo r))).
Proof.
  eexists. split; [vm_compute; reflexivity|].
  apply (uncovered_units_are_geometry_only (H := Sample.coercion)
           Sample.src0 empty_store _ Sample.vi_zip "78").
  - vm_compute. reflexivity.
  - left.
  - vm_compute. reflexivity.
  - vm_compute. reflexivity.
Defined.

(** ** Failure of an extraction *)

Lemma traverse_Err {A B} (f : A → result B) (l : list A) x e :
  x ∈ l → f x = Err e → ∃ e', traverse f l = Err e'.
Proof.
  intros Hx Hf. induction l as [|y l IH]; [by apply elem_of_nil in Hx|].
  cbn [traverse]. destruct (f y) as [b|e0] eqn:Ey; rsimpl; [|by eexists].
  apply elem_of_cons in Hx as [->|Hx]; [congruence|].
  destruct (IH Hx) as [e' ->]. rsimpl. by eexists.
Qed.

Lemma process_pop_Err src st file e :
  process_pop src st file = Err e → pop_written src file = Err e.
Proof.
  rewrite process_pop_writes.
  destruct (pop_written src file); rsimpl; [discriminate | by intros [= ->]].
Qed.

Lemma main_fails_with_process_pop `{Coercion} src st st' file FIPS e :
  file ∈ tabblock20 src →
  FIPS_of file = Ok FIPS →
  in_statelookup FIPS = true →
  process_pop src st' file = Err e →
  ∃ e', main src st = Err e'.
Proof.
  intros Hfile HF Hin He%process_pop_Err. unfold main, extract.
  destruct (covered (tabblock20 src)) as [pops|] eqn:Hc; rsimpl; [|by eexists].
  assert (file ∈ pops) as Hpops by (apply (covered_Ok _ _ Hc); eauto).
  destruct (bool_decide (tabblock20 src ≠ [])); rsimpl; [|by eexists].
  destruct (bool_decide (pops ≠ [])); rsimpl; [|by eexists].
  rewrite (compute_writes (geo_written src) put_geo)
    by (intros; apply process_geo_writes).
  destruct (traverse (geo_written src) (tabblock20 src)) as [gs|]; rsimpl; [|by eexists].
  rewrite (compute_writes (pop_written src) put_pop)
    by (intros; apply process_pop_writes).
  destruct (traverse_Err (pop_written src) pops file e Hpops He) as [e' ->].
  rsimpl. by eexists.
Qed.

(** C2: when [process_pop] returns, the dataset it wrote is one partition
    whose index is free of duplicates and strictly ascending.  When the
    files of the unit are read and the index of the joined frame has a
    duplicate, [process_pop] raises AssertionError; and a run whose file list
    holds a covered file for which [process_pop] raises does not complete. *)
Theorem process_pop_index_unique_sorted `{Coercion} src :
  (∀ st file out st',
     process_pop src st file = Ok (out, st') →
     ∃ rows, pq_pop st' !! out = Some [rows] ∧
             NoDup (keys rows) ∧ StronglySorted str_lt (keys rows)) ∧
  (∀ st file FIPS ABBR seg_1_df geo_df,
     FIPS_of file = Ok FIPS → statelookup !! FIPS = Some ABBR →
     summary_table src = true →
     pl_seg1 src !! state_1 ABBR = Some seg_1_df →
     pl_geo src !! state_geo ABBR = Some geo_df →
     ¬ NoDup (keys (block_df geo_df seg_1_df)) →
     process_pop src st file = Err AssertionError) ∧
  (∀ st st' file FIPS e,
     file ∈ tabblock20 src →
  FIPS_of file = Ok FIPS →
  in_statelookup FIPS = true →
     process_pop src st' file = Err e →
     ∃ e', main src st = Err e').
Proof.
  split; [|split].
  - intros st file out st' Hp.
    apply process_pop_Ok in Hp as (F & A & seg & geo & _ & _ & _ & _ & _ & Hnd & -> & ->).
    exists (block_df geo seg). split.
    + rewrite pq_pop_to_parquet_pop, lookup_insert_eq. f_equal.
      apply from_pandas_of_sorted, block_df_Sorted.
    + split; [done|]. apply strictly_sorted; [apply block_df_Sorted | done].
  - intros st file F A seg geo H1 H2 H3 H4 H5 Hdup.
    rewrite (process_pop_run _ _ _ _ _ _ _ H1 H2 H3 H4 H5).
    unfold is_unique. by rewrite bool_decide_eq_false_2.
  - intros st st' file F e. apply main_fails_with_process_pop.
Qed.

Lemma process_pop_index_unique_sorted_witness :
  (∃ out st',
     process_pop Sample.src0 empty_store Sample.ca_zip = Ok (out, st') ∧
     ∃ rows, pq_pop st' !! out = Some [rows] ∧
             NoDup (keys rows) ∧ StronglySorted str_lt (keys rows)) ∧
  process_pop Sample.src_dup_records empty_store Sample.ca_zip = Err AssertionError ∧
  (∃ e', main (H := Sample.coercion) Sample.src_dup_records empty_store = Err e').
Proof.
  pose proof (process_pop_index_unique_sorted (H := Sample.coercion) Sample.src0)
    as (Hok & _ & _).
  pose proof (process_pop_index_unique_sorted (H := Sample.coercion) Sample.src_dup_records)
    as (_ & Hdup & Hrun).
  split; [|split].
  - eexists _, _. split; [vm_compute; reflexivity|].
    apply (Hok empty_store Sample.ca_zip). vm_compute. reflexivity.
  - apply (Hdup empty_store Sample.ca_zip "06" "CA"
                (Sample.ca_seg1 ++ [Sample.seg1_row 2 [13]]) Sample.ca_geo);
      try (vm_compute; reflexivity).
    apply (bool_decide_eq_false_1 (NoDup _)). vm_compute. reflexivity.
  - apply (Hrun empty_store empty_store Sample.ca_zip "06" AssertionError).
    + right. left.
    + vm_compute. reflexivity.
    + vm_compute. reflexivity.
    + vm_compute. reflexivity.
Defined.

(** ** The unit validator *)

Lemma process_raises_for_covered_unit `{Coercion} src st file FIPS :
  FIPS_of file = Ok FIPS → in_statelookup FIPS = true →
  ∃ e, process src st file = Err e.
Proof.
  intros HF Hin. unfold process, pd_merge_paths.
  destruct (process_geo src st file) as [[g st1]|]; rsimpl; [|by eexists].
  rewrite HF. rsimpl. rewrite Hin.
  destruct (process_pop src st1 file) as [[p st2]|]; rsimpl; by eexists.
Qed.

(** C3 does not hold of the code.  For the California unit of the sample,
    whose geometry and population datasets carry the same three keys,
    [process] raises TypeError: it hands the two output paths to [pd.merge].
    [main] never calls [process]: with a geo-header that lists a block the
    shapefile does not have, the run completes and the merged population
    table holds a key that the merged geometry table lacks. *)
Lemma process_validator_never_joins :
  (∃ g sg grows p sp prows,
     process_geo (H := Sample.coercion) Sample.src0 empty_store Sample.ca_zip = Ok (g, sg) ∧
     pq_geo sg !! g = Some [grows] ∧
     process_pop Sample.src0 empty_store Sample.ca_zip = Ok (p, sp) ∧
     pq_pop sp !! p = Some [prows] ∧
     keys grows = keys prows) ∧
  process (H := Sample.coercion) Sample.src0 empty_store Sample.ca_zip = Err TypeError ∧
  (∃ r, main (H := Sample.coercion) Sample.src_misaligned empty_store = Ok r ∧
        "060014001009999" ∈ partitions (pop r) ≫= keys ∧
        "060014001009999" ∉ partitions (geo r) ≫= keys).
Proof.
  split; [|split].
  - eexists _, _, _, _, _, _.
    split; [vm_compute; reflexivity|]. split; [vm_compute; reflexivity|].
    split; [vm_compute; reflexivity|]. split; [vm_compute; reflexivity|].
    vm_compute. reflexivity.
  - vm_compute. reflexivity.
  - eexists. split; [vm_compute; reflexivity|].
    split; apply (bool_decide_unpack _); vm_compute; exact I.
Qed.

(** * Further properties of the code *)

(** ** The region code of a file name *)

Lemma no_sep_cons sep c x :
  count_char sep (String c x) = 0%nat → Ascii.eqb c sep = false ∧ count_char sep x = 0%nat.
Proof. simpl. destruct (Ascii.eqb c sep); [done|]. auto. Qed.

Lemma split_go_field sep cur x rest :
  count_char sep x = 0%nat →
  Py.split_go sep cur (x +:+ String sep rest)
  = String.rev_app cur x :: Py.split_go sep EmptyString rest.
Proof.
  revert cur. induction x as [|c x IH]; intros cur Hx; simpl.
  - by rewrite Ascii.eqb_refl.
  - apply no_sep_cons in Hx as [-> Hx]. by rewrite IH.
Qed.

Lemma split_go_last sep cur x :
  count_char sep x = 0%nat → Py.split_go sep cur x = [String.rev_app cur x].
Proof.
  revert cur. induction x as [|c x IH]; intros cur Hx; simpl; [done|].
  apply no_sep_cons in Hx as [-> Hx]. by rewrite IH.
Qed.

Lemma split_go_length sep cur s :
  length (Py.split_go sep cur s) = S (count_char sep s).
Proof.
  revert cur. induction s as [|c s IH]; intros cur; simpl; [done|].
  destruct (Ascii.eqb c sep); simpl; by rewrite IH.
Qed.

Lemma FIPS_of_Err file e : FIPS_of file = Err e → e = IndexError.
Proof. unfold FIPS_of. destruct (_ !! _); by intros [=]. Qed.

(** X1: the region code is the third underscore-separated field of the
    stem.  A stem [a_b_F_rest] or [a_b_F] gives [F]; a stem parses exactly
    when it has at least two underscores, and raises IndexError otherwise. *)
Theorem FIPS_of_third_field :
  (∀ a b F rest,
     count_char "_" a = 0%nat → count_char "_" b = 0%nat → count_char "_" F = 0%nat →
     FIPS_of (a +:+ "_" +:+ b +:+ "_" +:+ F +:+ "_" +:+ rest) = Ok F ∧
     FIPS_of (a +:+ "_" +:+ b +:+ "_" +:+ F) = Ok F) ∧
  (∀ stem, FIPS_of stem = Err IndexError ↔ (count_char "_" stem < 2)%nat) ∧
  (∀ stem, (∃ F, FIPS_of stem = Ok F) ↔ (2 ≤ count_char "_" stem)%nat).
Proof.
  assert (∀ stem, (count_char "_" stem < 2)%nat → FIPS_of stem = Err IndexError) as Hlt.
  { intros stem Hc. unfold FIPS_of, Py.split.
    rewrite (lookup_ge_None_2 _ 2); [done|]. rewrite split_go_length. lia. }
  assert (∀ stem, (2 ≤ count_char "_" stem)%nat → ∃ F, FIPS_of stem = Ok F) as Hge.
  { intros stem Hc. unfold FIPS_of, Py.split.
    destruct (lookup_lt_is_Some_2 (Py.split_go "_" "" stem) 2) as [F ->]; [|by eexists].
    rewrite split_go_length. lia. }
  split; [|split].
  - intros a b F rest Ha Hb HF. unfold FIPS_of, Py.split. split.
    + change (a +:+ "_" +:+ b +:+ "_" +:+ F +:+ "_" +:+ rest)
        with (a +:+ String "_" (b +:+ String "_" (F +:+ String "_" rest))).
      by rewrite !split_go_field.
    + change (a +:+ "_" +:+ b +:+ "_" +:+ F)
        with (a +:+ String "_" (b +:+ String "_" F)).
      by rewrite !split_go_field, split_go_last.
  - intros stem. split; [|apply Hlt]. intros He.
    destruct (decide (count_char "_" stem < 2)%nat) as [|Hn]; [done|].
    destruct (Hge stem) as [F HF]; [lia|]. congruence.
  - intros stem. split; [|apply Hge]. intros [F HF].
    destruct (decide (2 ≤ count_char "_" stem)%nat) as [|Hn]; [done|].
    rewrite Hlt in HF by lia. done.
Qed.

Lemma FIPS_of_third_field_witness :
  FIPS_of ("tl" +:+ "_" +:+ "2020" +:+ "_" +:+ "06" +:+ "_" +:+ "tabblock20") = Ok "06" ∧
  FIPS_of ("tl" +:+ "_" +:+ "2020" +:+ "_" +:+ "06") = Ok "06".
Proof.
  apply (proj1 FIPS_of_third_field "tl" "2020" "06" "tabblock20"); reflexivity.
Defined.

(** ** Identifiers without the prefix *)

Lemma replace_go_length old k s :
  (String.length (Py.replace_go old k s) ≤ String.length s)%nat.
Proof.
  revert k. induction s as [|c s IH]; intros k; [done|].
  cbn [Py.replace_go]. destruct k as [|k].
  - destruct (String.prefix old (String c s)).
    + specialize (IH (Nat.pred (String.length old))). cbn [String.length]. lia.
    + cbn [String.length]. specialize (IH 0%nat). lia.
  - specialize (IH k). cbn [String.length]. lia.
Qed.

Lemma replace_go_shorter d o s :
  Py.contains (String d o) s = true →
  (String.length (Py.replace_go (String d o) 0 s) < String.length s)%nat.
Proof.
  induction s as [|c s IH]; [done|].
  cbn [Py.contains Py.replace_go]. destruct (String.prefix (String d o) (String c s)).
  - intros _. pose proof (replace_go_length (String d o)
                            (Nat.pred (String.length (String d o))) s) as Hle.
    cbn [String.length] in *. lia.
  - cbn [orb String.length]. intros Hs. specialize (IH Hs). lia.
Qed.

(** X2: an identifier is left as it is exactly when it does not contain the
    prefix literal (an identifier without the prefix passes through, no
    error is raised), and no key is longer than its identifier. *)
Theorem normalize_key_passes_through :
  (∀ raw, normalize_key raw = raw ↔ Py.contains GEOID_PREFIX raw = false) ∧
  (∀ raw, (String.length (normalize_key raw) ≤ String.length raw)%nat).
Proof.
  split.
  - intros raw. split; [|apply replace_absent].
    intros Hfix. destruct (Py.contains GEOID_PREFIX raw) eqn:Hc; [|done].
    apply replace_go_shorter in Hc.
    unfold normalize_key, Py.replace_with_empty, GEOID_PREFIX in Hfix.
    rewrite Hfix in Hc. lia.
  - intros raw. apply replace_go_length.
Qed.

(** ** Runs that stop before any extraction *)

Lemma covered_none files :
  (∀ file, file ∈ files → ∃ FIPS, FIPS_of file = Ok FIPS ∧ in_statelookup FIPS = false) →
  covered files = Ok [].
Proof.
  induction files as [|f files IH]; intros Hall; [done|].
  cbn [covered]. destruct (Hall f) as (F & -> & Hin); [left|]. rsimpl.
  rewrite IH by (intros; apply Hall; by right). rsimpl. by rewrite Hin.
Qed.

Lemma covered_Err files file e :
  file ∈ files → FIPS_of file = Err e → covered files = Err IndexError.
Proof.
  intros Hfile He. induction files as [|f files IH]; [by apply elem_of_nil in Hfile|].
  cbn [covered]. destruct (FIPS_of f) as [F|e0] eqn:Ef; rsimpl.
  - apply elem_of_cons in Hfile as [->|Hfile]; [congruence|].
    by rewrite (IH Hfile).
  - by apply FIPS_of_Err in Ef as ->.
Qed.

(** X3: a run needs a unit with population coverage.  When the directory is
    empty, or every archive carries a region code outside the lookup table,
    [main] raises AssertionError. *)
Theorem main_requires_a_covered_unit `{Coercion} src st :
  (∀ file, file ∈ tabblock20 src →
     ∃ FIPS, FIPS_of file = Ok FIPS ∧ in_statelookup FIPS = false) →
  main src st = Err AssertionError.
Proof.
  intros Hall. unfold main, extract. rewrite (covered_none _ Hall). rsimpl.
  by destruct (bool_decide (tabblock20 src ≠ [])).
Qed.

Lemma main_requires_a_covered_unit_witness :
  main (H := Sample.coercion) only_vi empty_store = Err AssertionError.
Proof.
  apply (main_requires_a_covered_unit (H := Sample.coercion) only_vi empty_store).
  intros file Hfile. apply list_elem_of_singleton in Hfile as ->.
  exists "78". split; vm_compute; reflexivity.
Defined.

(** X4: the region codes are read when the list of population tasks is
    built.  An archive whose stem has no third field makes [main] raise
    IndexError, whatever the other archives are. *)
Theorem main_rejects_a_stem_without_code `{Coercion} src st file e :
  file ∈ tabblock20 src → FIPS_of file = Err e →
  main src st = Err IndexError.
Proof.
  intros Hfile He. unfold main, extract.
  by rewrite (covered_Err _ _ _ Hfile He).
Qed.

Lemma main_rejects_a_stem_without_code_witness :
  main (H := Sample.coercion) misnamed empty_store = Err IndexError.
Proof.
  apply (main_rejects_a_stem_without_code (H := Sample.coercion)
           misnamed empty_store "tl_2020" IndexError).
  - right. left.
  - reflexivity.
Defined.

(** ** What [process] returns *)

(** X5: [process] returns exactly for a unit whose region code is not in the
    lookup table and whose geometry extraction returns; it then returns the
    file, the geometry output path and no population path, and leaves the
    store as [process_geo] left it. *)
Theorem process_returns_for_uncovered_units `{Coercion} src st file v :
  process src st file = Ok v ↔
  ∃ FIPS geo st',
    FIPS_of file = Ok FIPS ∧ in_statelookup FIPS = false ∧
    process_geo src st file = Ok (geo, st') ∧ v = (file, geo, None, st').
Proof.
  unfold process, pd_merge_paths. split.
  - intros Hp.
    destruct (process_geo src st file) as [[g st1]|]; rsimpl in Hp; [|done].
    destruct (FIPS_of file) as [F|]; rsimpl in Hp; [|done].
    destruct (in_statelookup F) eqn:Hin.
    + destruct (process_pop src st1 file) as [[p st2]|]; rsimpl in Hp; done.
    + apply Ok_inj in Hp as <-. by exists F, g, st1.
  - intros (F & g & st' & HF & Hin & -> & ->). rsimpl. rewrite HF. rsimpl.
    by rewrite Hin.
Qed.

(** ** The order of the extraction tasks *)

Lemma foldl_insert_lookup_notin {V} (m : gmap string V) (ws : list (string * V)) p :
  p ∉ ws.*1 → foldl (fun m w => <[w.1 := w.2]> m) m ws !! p = m !! p.
Proof.
  induction ws as [|[q d] ws IH] using rev_ind; [done|].
  rewrite fmap_app, foldl_app. simpl. intros Hp.
  rewrite lookup_insert_ne.
  - apply IH. intros Hin. apply Hp, elem_of_app. by left.
  - intros ->. apply Hp, elem_of_app. right. left.
Qed.

Lemma foldl_insert_agree {V} (m m' : gmap string V) (ws : list (string * V)) p :
  p ∈ ws.*1 →
  foldl (fun m w => <[w.1 := w.2]> m) m ws !! p
  = foldl (fun m w => <[w.1 := w.2]> m) m' ws !! p.
Proof.
  induction ws as [|[q d] ws IH] using rev_ind; [by intros ?%elem_of_nil|].
  rewrite fmap_app, !foldl_app. simpl. intros Hp.
  destruct (decide (q = p)) as [->|Hne]; [by rewrite !lookup_insert_eq|].
  rewrite !lookup_insert_ne by done. apply IH.
  apply elem_of_app in Hp as [Hp|Hp%list_elem_of_singleton]; done.
Qed.

Lemma foldl_insert_Permutation {V} (m : gmap string V) (ws ws' : list (string * V)) :
  NoDup ws.*1 → ws ≡ₚ ws' →
  foldl (fun m w => <[w.1 := w.2]> m) m ws = foldl (fun m w => <[w.1 := w.2]> m) m ws'.
Proof.
  intros Hnd Hperm. apply map_eq. intros p.
  destruct (decide (p ∈ ws.*1)) as [Hin|Hnotin].
  - destruct (foldl_insert_lookup m ws p Hin) as (d & Hd & ->).
    assert (p ∈ ws'.*1) as Hin' by by rewrite <- Hperm.
    destruct (foldl_insert_lookup m ws' p Hin') as (d' & Hd' & ->).
    f_equal. rewrite <- Hperm in Hd'. by eapply NoDup_fst_functional.
  - rewrite !foldl_insert_lookup_notin; [done| |done]. by rewrite <- Hperm.
Qed.

Lemma traverse_Permutation {A B} (f : A → result B) (l l' : list A) ys :
  l ≡ₚ l' → traverse f l = Ok ys → ∃ ys', traverse f l' = Ok ys' ∧ ys ≡ₚ ys'.
Proof.
  intros Hperm. revert ys.
  induction Hperm as [|x l l' _ IH|x y l|l1 l2 l3 _ IH1 _ IH2]; intros ys Ht.
  - by exists ys.
  - cbn [traverse] in *. destruct (f x) as [b|]; rsimpl in Ht; [|done].
    destruct (traverse f l) as [bs|]; rsimpl in Ht; [|done]. apply Ok_inj in Ht as <-.
    destruct (IH bs eq_refl) as (bs' & -> & Hbs). rsimpl. exists (b :: bs').
    split; [done|]. by constructor.
  - cbn [traverse] in *. destruct (f y) as [b|]; rsimpl in Ht; [|done].
    destruct (f x) as [c|]; rsimpl in Ht; [|done].
    destruct (traverse f l) as [bs|]; rsimpl in Ht; [|done]. apply Ok_inj in Ht as <-.
    exists (c :: b :: bs). split; [done|]. apply perm_swap.
  - destruct (IH1 ys Ht) as (ys2 & Ht2 & Hp2).
    destruct (IH2 ys2 Ht2) as (ys3 & Ht3 & Hp3).
    exists ys3. split; [done|]. by etrans.
Qed.

Lemma Store_eq (s1 s2 : Store) :
  pq_pop s1 = pq_pop s2 → pq_geo s1 = pq_geo s2 → s1 = s2.
Proof. destruct s1, s2. simpl. by intros -> ->. Qed.

Lemma foldl_put_geo_Permutation st ws ws' :
  NoDup ws.*1 → ws ≡ₚ ws' →
  foldl (fun st w => put_geo w st) st ws = foldl (fun st w => put_geo w st) st ws'.
Proof.
  intros Hnd Hperm. apply Store_eq.
  - by rewrite !(proj2 (pq_geo_foldl_put_geo _ _)).
  - rewrite !(proj1 (pq_geo_foldl_put_geo _ _)). by apply foldl_insert_Permutation.
Qed.

Lemma foldl_put_pop_Permutation st ws ws' :
  NoDup ws.*1 → ws ≡ₚ ws' →
  foldl (fun st w => put_pop w st) st ws = foldl (fun st w => put_pop w st) st ws'.
Proof.
  intros Hnd Hperm. apply Store_eq.
  - rewrite !(proj1 (pq_pop_foldl_put_pop _ _)). by apply foldl_insert_Permutation.
  - by rewrite !(proj2 (pq_pop_foldl_put_pop _ _)).
Qed.

Section compute_order.
Context {D : Type}.
Variable core : string → result (string * D).
Variable put : string * D → Store → Store.
Variable task : Store → string → result (string * Store).
Hypothesis task_writes :
  ∀ st file, task st file = w ← core file; Ok (w.1, put w st).
Hypothesis put_Permutation :
  ∀ st (ws ws' : list (string * D)),
    NoDup ws.*1 → ws ≡ₚ ws' →
    foldl (fun st w => put w st) st ws = foldl (fun st w => put w st) st ws'.

Lemma compute_Permutation st files files' outs st' :
  files ≡ₚ files' →
  compute task st files = Ok (outs, st') → NoDup outs →
  ∃ outs', compute task st files' = Ok (outs', st') ∧ outs ≡ₚ outs'.
Proof.
  intros Hperm Hc Hnd.
  rewrite (compute_writes core put task task_writes) in Hc |- *.
  destruct (traverse core files) as [ws|] eqn:Ht; rsimpl in Hc; [|done].
  apply Ok_inj in Hc. injection Hc as <- <-.
  destruct (traverse_Permutation _ _ _ _ Hperm Ht) as (ws' & -> & Hws). rsimpl.
  exists ws'.*1. split; [|by rewrite Hws].
  by rewrite (put_Permutation st ws ws' Hnd Hws).
Qed.

End compute_order.

(** X6: the order in which the extraction tasks of a fan-out run does not
    matter.  When the tasks for a list of files return with pairwise
    distinct output paths, the tasks for any rearrangement of the list return
    too, with the same output paths and the same store. *)
Theorem extraction_order_is_immaterial `{Coercion} src st files files' outs st' :
  files ≡ₚ files' → NoDup outs →
  (compute (process_geo src) st files = Ok (outs, st') →
   ∃ outs', compute (process_geo src) st files' = Ok (outs', st') ∧ outs ≡ₚ outs') ∧
  (compute (process_pop src) st files = Ok (outs, st') →
   ∃ outs', compute (process_pop src) st files' = Ok (outs', st') ∧ outs ≡ₚ outs').
Proof.
  intros Hperm Hnd. split; intros Hc.
  - eapply (compute_Permutation (geo_written src) put_geo); eauto.
    + intros. apply process_geo_writes.
    + apply foldl_put_geo_Permutation.
  - eapply (compute_Permutation (pop_written src) put_pop); eauto.
    + intros. apply process_pop_writes.
    + apply foldl_put_pop_Permutation.
Qed.

Lemma extraction_order_is_immaterial_witness :
  ∃ st',
    compute (process_geo (H := Sample.coercion) Sample.src0) empty_store
            [Sample.vi_zip; Sample.ca_zip]
    = Ok ([geo_output "78"; geo_output "06"], st') ∧
    ∃ outs',
      compute (process_geo (H := Sample.coercion) Sample.src0) empty_store
              [Sample.ca_zip; Sample.vi_zip] = Ok (outs', st') ∧
      [geo_output "78"; geo_output "06"] ≡ₚ outs'.
Proof.
  assert (NoDup [geo_output "78"; geo_output "06"]) as Hnd
    by (apply (bool_decide_unpack _); vm_compute; exact I).
  eexists. split; [vm_compute; reflexivity|].
  apply (proj1 (extraction_order_is_immaterial (H := Sample.coercion) Sample.src0
                  empty_store [Sample.vi_zip; Sample.ca_zip]
                  [Sample.ca_zip; Sample.vi_zip] _ _ (perm_swap _ _ _) Hnd)).
  vm_compute. reflexivity.
Defined.

(** ** After the extraction *)

Lemma read_units_return {P} (m : gmap string (list (list (string * P)))) paths :
  Forall (fun p => ∃ data, m !! p = Some [data]) paths →
  ∃ datas, traverse (fun p => read_dataset (m !! p)) paths = Ok (read_one <$> datas) ∧
           length datas = length paths.
Proof.
  induction 1 as [|p paths (data & Hp) _ (datas & IH & Hlen)]; [by exists []|].
  exists (data :: datas). cbn [traverse]. rewrite Hp, IH. rsimpl.
  split; [done|]. simpl. by rewrite Hlen.
Qed.

Lemma merge_returns {P} (m : gmap string (list (list (string * P)))) paths :
  paths ≠ [] →
  Forall (fun p => ∃ data, m !! p = Some [data]) paths →
  ∃ g, traverse (fun p => read_dataset (m !! p)) (sorted paths) ≫= concat = Ok g.
Proof.
  intros Hne Hunits.
  assert (Forall (fun p => ∃ data, m !! p = Some [data]) (sorted paths)) as Hs
    by by rewrite sorted_Permutation.
  destruct (read_units_return m _ Hs) as (datas & -> & Hlen). rsimpl.
  rewrite sorted_Permutation in Hlen.
  destruct datas as [|d datas]; [by destruct paths|]. by eexists.
Qed.

Lemma extract_Ok_units `{Coercion} src st gf pf st1 :
  extract src st = Ok (gf, pf, st1) →
  gf ≠ [] ∧ pf ≠ [] ∧
  Forall (fun p => ∃ data, pq_geo st1 !! p = Some [data]) gf ∧
  Forall (fun p => ∃ data, pq_pop st1 !! p = Some [data]) pf.
Proof.
  intros He.
  apply extract_Ok in He as (pops & gs & ps & Hc & Hne & HFg & HFp & -> & -> & Eg & Ep).
  assert (tabblock20 src ≠ []) as Hfiles.
  { destruct pops as [|f pops]; [done|]. intros Hnil.
    assert (f ∈ tabblock20 src) as Hf by (apply (covered_Ok _ _ Hc); left).
    rewrite Hnil in Hf. by apply elem_of_nil in Hf. }
  repeat split.
  - intros Hnil%fmap_nil_inv. subst gs. by apply Forall2_nil_inv_r in HFg.
  - intros Hnil%fmap_nil_inv. subst ps. by apply Forall2_nil_inv_r in HFp.
  - rewrite Eg. by apply written_units, (geo_written_units src (tabblock20 src)).
  - rewrite Ep. by apply written_units, (pop_written_units src pops).
Qed.

(** X7: once both fan-outs have returned, reading the unit datasets back and
    concatenating them cannot raise.  The run then raises AssertionError
    exactly when one of the merged tables has no known divisions; otherwise
    it returns when the write of the geometry table returns and raises the
    RuntimeError of that write when it does not.  The checks after the write
    never fail. *)
Theorem outcomes_after_extraction `{Coercion} src st gf pf st1 :
  extract src st = Ok (gf, pf, st1) →
  ∃ p g,
    merge_pop st1 pf = Ok p ∧ merge_geo st1 gf = Ok g ∧
    (main src st = Err AssertionError ↔
     known_divisions p = false ∨ known_divisions g = false) ∧
    (known_divisions p = true → known_divisions g = true →
     (∀ st2, to_parquet_geo OUT_GEO g (to_parquet_pop OUT_POP p st1) = Ok st2 →
             ∃ r, main src st = Ok r ∧ final r = st2) ∧
     (∀ e, to_parquet_geo OUT_GEO g (to_parquet_pop OUT_POP p st1) = Err e →
           e = RuntimeError ∧ main src st = Err RuntimeError)) ∧
    ((∃ r, main src st = Ok r) ∨ main src st = Err AssertionError ∨
     main src st = Err RuntimeError).
Proof.
  intros He. destruct (extract_Ok_units _ _ _ _ _ He) as (Hgf & Hpf & Hug & Hup).
  destruct (merge_returns (pq_pop st1) pf Hpf Hup) as [p Hp].
  destruct (merge_returns (pq_geo st1) gf Hgf Hug) as [g Hg].
  change (merge_pop st1 pf = Ok p) in Hp. change (merge_geo st1 gf = Ok g) in Hg.
  exists p, g. split; [done|]. split; [done|].
  assert (known_divisions p = false ∨ known_divisions g = false →
          main src st = Err AssertionError) as Hassert.
  { intros Hk. unfold main. rewrite He. rsimpl. rewrite Hp. rsimpl. rewrite Hg. rsimpl.
    destruct Hk as [-> | ->]; rsimpl; [done|]. by destruct (known_divisions p). }
  destruct (known_divisions p) eqn:Kp; [|by repeat split; auto].
  destruct (known_divisions g) eqn:Kg; [|by repeat split; auto].
  destruct (main_after_assertions _ _ _ _ _ _ _ He Hp Hg Kp Kg) as [Hok Herr].
  unfold to_parquet_geo. destruct (consistent (partitions g)).
  - rewrite (Hok eq_refl). split; [|split]; [|intros _ _; split|left; by eexists].
    + split; [done|by intros [?|?]].
    + intros st2 [= <-]. by eexists.
    + by intros e [=].
  - rewrite (Herr eq_refl). split; [|split]; [|intros _ _; split|right; by right].
    + split; [done|by intros [?|?]].
    + by intros st2 [=].
    + by intros e [= <-].
Qed.

Lemma outcomes_after_extraction_witness :
  ∃ gf pf st1,
    extract (H := Sample.coercion) Sample.src0 empty_store = Ok (gf, pf, st1) ∧
    ∃ p g,
      merge_pop st1 pf = Ok p ∧ merge_geo st1 gf = Ok g ∧
      (main (H := Sample.coercion) Sample.src0 empty_store = Err AssertionError ↔
       known_divisions p = false ∨ known_divisions g = false) ∧
      (known_divisions p = true → known_divisions g = true →
       (∀ st2, to_parquet_geo OUT_GEO g (to_parquet_pop OUT_POP p st1) = Ok st2 →
               ∃ r, main (H := Sample.coercion) Sample.src0 empty_store = Ok r ∧
                    final r = st2) ∧
       (∀ e, to_parquet_geo OUT_GEO g (to_parquet_pop OUT_POP p st1) = Err e →
             e = RuntimeError ∧
             main (H := Sample.coercion) Sample.src0 empty_store = Err RuntimeError)) ∧
      ((∃ r, main (H := Sample.coercion) Sample.src0 empty_store = Ok r) ∨
       main (H := Sample.coercion) Sample.src0 empty_store = Err AssertionError ∨
       main (H := Sample.coercion) Sample.src0 empty_store = Err RuntimeError).
Proof.
  eexists _, _, _. split; [vm_compute; reflexivity|].
  apply (outcomes_after_extraction (H := Sample.coercion) Sample.src0 empty_store).
  vm_compute. reflexivity.
Defined.

(** ** The partitions of a completed run *)

Lemma merge_known_nonempty {P} (m : gmap string (list (list (string * P)))) paths g :
  Forall (fun p => ∃ data, m !! p = Some [data]) paths →
  traverse (fun p => read_dataset (m !! p)) (sorted paths) ≫= concat = Ok g →
  known_divisions g = true →
  length (partitions g) = length paths ∧ Forall (fun q => q ≠ []) (partitions g).
Proof.
  intros Hunits Hg Hk.
  assert (Forall (fun p => ∃ data, m !! p = Some [data]) (sorted paths)) as Hunits'
    by by rewrite sorted_Permutation.
  destruct (merge_units m _ _ Hunits' Hg) as (datas & HF & Hparts & Hdiv).
  apply bool_decide_eq_true in Hk as [out Hout]. rewrite Hdiv in Hout.
  destruct (stack_ranges _ _ Hout) as (_ & Hne & _).
  rewrite Hparts. split; [|done].
  rewrite <- (Forall2_length _ _ _ HF). by rewrite sorted_Permutation.
Qed.

(** X8: in a run that completes, the geometry table has one partition per
    archive and the population table one partition per archive with
    population coverage, and no partition is empty: an archive without
    records, or a covered state without block-level rows, stops the run. *)
Theorem one_partition_per_unit `{Coercion} src st r :
  main src st = Ok r →
  ∃ pops,
    covered (tabblock20 src) = Ok pops ∧
    length (partitions (geo r)) = length (tabblock20 src) ∧
    length (partitions (pop r)) = length pops ∧
    Forall (fun q => q ≠ []) (partitions (geo r)) ∧
    Forall (fun q => q ≠ []) (partitions (pop r)).
Proof.
  intros Hm. apply main_Ok in Hm as (st1 & He & Hp & Hg & Kp & Kg & _).
  destruct (extract_Ok_units _ _ _ _ _ He) as (_ & _ & Hug & Hup).
  apply extract_Ok in He as (pops & gs & ps & Hc & _ & HFg & HFp & Egf & Epf & _).
  destruct (merge_known_nonempty (pq_geo st1) _ _ Hug Hg Kg) as [Hlg Hng].
  destruct (merge_known_nonempty (pq_pop st1) _ _ Hup Hp Kp) as [Hlp Hnp].
  exists pops. repeat split; try done.
  - by rewrite Hlg, Egf, length_fmap, <- (Forall2_length _ _ _ HFg).
  - by rewrite Hlp, Epf, length_fmap, <- (Forall2_length _ _ _ HFp).
Qed.

Lemma one_partition_per_unit_witness :
  ∃ r, main (H := Sample.coercion) Sample.src0 empty_store = Ok r ∧
       ∃ pops,
         covered (tabblock20 Sample.src0) = Ok pops ∧
         length (partitions (geo r)) = length (tabblock20 Sample.src0) ∧
         length (partitions (pop r)) = length pops ∧
         Forall (fun q => q ≠ []) (partitions (geo r)) ∧
         Forall (fun q => q ≠ []) (partitions (pop r)).
Proof.
  eexists. split; [vm_compute; reflexivity|].
  apply (one_partition_per_unit (H := Sample.coercion) Sample.src0 empty_store).
  vm_compute. reflexivity.
Defined.

(** X9: two archives with one region code cannot both be merged.  In a run
    that completes, the codes of the archives are pairwise distinct. *)
Theorem region_codes_are_distinct `{Coercion} src st r i j file file' FIPS :
  main src st = Ok r →
  tabblock20 src !! i = Some file → tabblock20 src !! j = Some file' →
  FIPS_of file = Ok FIPS → FIPS_of file' = Ok FIPS →
  i = j.
Proof.
  intros Hm Hi Hj HF HF'.
  destruct (main_Ok_merged _ _ _ Hm)
    as (st1 & pops & gs & ps & _ & HFg & _ & Egf & _ & _ & _ & _ & Hgeo).
  destruct Hgeo as (_ & _ & Hnd & _). rewrite Egf in Hnd.
  destruct (Forall2_lookup_l _ _ _ _ _ HFg Hi) as ([p d] & Hwi & Hgi).
  destruct (Forall2_lookup_l _ _ _ _ _ HFg Hj) as ([p' d'] & Hwj & Hgj).
  apply geo_written_Ok in Hgi as (F1 & ? & HF1 & -> & _).
  apply geo_written_Ok in Hgj as (F2 & ? & HF2 & -> & _).
  assert (F1 = FIPS) as -> by congruence. assert (F2 = FIPS) as -> by congruence.
  eapply (NoDup_lookup _ _ _ (geo_output FIPS) Hnd).
  - by rewrite list_lookup_fmap, Hwi.
  - by rewrite list_lookup_fmap, Hwj.
Qed.

Lemma region_codes_are_distinct_witness :
  ∃ r, main (H := Sample.coercion) Sample.src0 empty_store = Ok r ∧ 1%nat = 1%nat.
Proof.
  eexists. split; [vm_compute; reflexivity|].
  eapply (region_codes_are_distinct (H := Sample.coercion) Sample.src0 empty_store
            _ 1 1 Sample.ca_zip Sample.ca_zip "06"); vm_compute; reflexivity.
Defined.

(** ** The keys of the merged tables *)

Lemma geo_written_sorted `{Coercion} src file out parts :
  geo_written src file = Ok (out, parts) →
  ∃ data, parts = [data] ∧ Sorted str_le (keys data).
Proof.
  unfold geo_written. intros Hw. inv_ok Hw.
  apply process_geo_Ok in Hx as (shp & gdf & FIPS & _ & _ & HF & -> & ->).
  rewrite pq_geo_store_geo, lookup_insert_eq in Hw.
  destruct (from_pandas_partitions (rows_of gdf)) as (data & Hdata & _ & Hs).
  rewrite Hdata in Hw. injection Hw as <- <-. by exists data.
Qed.

Lemma written_partition {V} (m0 : gmap string (list V)) (ws : list (string * list V))
  (paths : list string) parts part :
  Forall2 (fun p data => foldl (fun m w => <[w.1 := w.2]> m) m0 ws !! p = Some [data])
          paths parts →
  paths ⊆ ws.*1 → part ∈ parts → ∃ p, (p, [part]) ∈ ws.
Proof.
  intros HF Hsub Hpart. apply list_elem_of_lookup in Hpart as [i Hi].
  destruct (Forall2_lookup_r _ _ _ _ _ HF Hi) as (p & Hp & Hl).
  apply list_elem_of_lookup_2, Hsub in Hp.
  destruct (foldl_insert_lookup m0 ws p Hp) as (d & Hd & Hl').
  exists p. pose proof (eq_trans (eq_sym Hl') Hl) as Hd'.
  apply (inj Some) in Hd'. by subst d.
Qed.

Lemma flatten_sorted {P} (R : relation string) (parts : list (list (string * P))) :
  (∀ k k', str_lt k k' → R k k') →
  ranges_increasing parts →
  Forall (fun q => StronglySorted R (keys q)) parts →
  StronglySorted R (parts ≫= keys).
Proof.
  intros HR. induction 1 as [|q parts Hs IH Hq]; intros Hall; [constructor|].
  apply Forall_cons in Hall as [Hsq Hall]. rewrite bind_cons.
  apply StronglySorted_app_2; [|done|by apply IH].
  intros k k' Hk (q' & Hk' & Hq')%list_elem_of_bind.
  rewrite Forall_forall in Hq. by apply HR, (Hq q' Hq').
Qed.

Lemma strictly_sorted_NoDup (l : list string) : StronglySorted str_lt l → NoDup l.
Proof.
  induction 1 as [|x l _ IH Hx]; constructor; [|done].
  intros Hin. rewrite Forall_forall in Hx. by apply (str_lt_irrefl x), Hx.
Qed.

(** X10: in a run that completes, the keys of the merged population table,
    read partition after partition, are strictly ascending, so every key
    occurs once in the whole table; the keys of the merged geometry table are
    ascending. *)
Theorem merged_keys_are_sorted `{Coercion} src st r :
  main src st = Ok r →
  StronglySorted str_lt (partitions (pop r) ≫= keys) ∧
  NoDup (partitions (pop r) ≫= keys) ∧
  StronglySorted str_le (partitions (geo r) ≫= keys).
Proof.
  intros Hm.
  destruct (main_Ok_merged _ _ _ Hm)
    as (st1 & pops & gs & ps & _ & HFg & HFp & Egf & Epf & Eg & Ep & Hpop & Hgeo).
  destruct Hpop as (Hpu & Hpr & _ & _). destruct Hgeo as (Hgu & Hgr & _ & _).
  assert (StronglySorted str_lt (partitions (pop r) ≫= keys)) as Hsp.
  { apply flatten_sorted; [done|done|]. apply Forall_forall. intros part Hpart.
    rewrite Ep in Hpu.
    assert (sorted (pop_files r) ⊆ ps.*1) as Hsub
      by (intros x; by rewrite sorted_Permutation, Epf).
    destruct (written_partition _ _ _ _ part Hpu Hsub Hpart) as (p & Hw).
    apply list_elem_of_lookup in Hw as [i Hi].
    destruct (Forall2_lookup_r _ _ _ _ _ HFp Hi) as (file & _ & Hfile).
    apply pop_written_Ok in Hfile as (F & A & seg & geo & _ & _ & _ & _ & Hnd & _ & Heq).
    injection Heq as ->. apply strictly_sorted; [apply block_df_Sorted | done]. }
  split; [done|]. split; [by apply strictly_sorted_NoDup|].
  apply flatten_sorted; [apply str_lt_le|done|]. apply Forall_forall. intros part Hpart.
  rewrite Eg in Hgu.
  assert (sorted (geo_files r) ⊆ gs.*1) as Hsub
    by (intros x; by rewrite sorted_Permutation, Egf).
  destruct (written_partition _ _ _ _ part Hgu Hsub Hpart) as (p & Hw).
  apply list_elem_of_lookup in Hw as [i Hi].
  destruct (Forall2_lookup_r _ _ _ _ _ HFg Hi) as (file & _ & Hfile).
  apply geo_written_sorted in Hfile as (data & Heq & Hs).
  injection Heq as ->. apply Sorted_StronglySorted; [apply _ | done].
Qed.

Lemma merged_keys_are_sorted_witness :
  ∃ r, main (H := Sample.coercion) Sample.src0 empty_store = Ok r ∧
       (StronglySorted str_lt (partitions (pop r) ≫= keys) ∧
        NoDup (partitions (pop r) ≫= keys) ∧
        StronglySorted str_le (partitions (geo r) ≫= keys)).
Proof.
  eexists. split; [vm_compute; reflexivity|].
  apply (merged_keys_are_sorted (H := Sample.coercion) Sample.src0 empty_store).
  vm_compute. reflexivity.
Defined.

(** ** The store before and after a run *)

Lemma traverse_ext_elem {A B} (f g : A → result B) (l : list A) :
  (∀ x, x ∈ l → f x = g x) → traverse f l = traverse g l.
Proof.
  induction l as [|x l IH]; intros Hfg; [done|]. cbn [traverse].
  rewrite (Hfg x) by left. rewrite IH; [done|]. intros y Hy. apply Hfg. by right.
Qed.

Lemma extract_eq `{Coercion} src st :
  extract src st
  = pops ← covered (tabblock20 src);
    _ ← py_assert (bool_decide (tabblock20 src ≠ []));
    _ ← py_assert (bool_decide (pops ≠ []));
    gs ← traverse (geo_written src) (tabblock20 src);
    ps ← traverse (pop_written src) pops;
    Ok (gs.*1, ps.*1,
        foldl (fun st w => put_pop w st) (foldl (fun st w => put_geo w st) st gs) ps).
Proof.
  unfold extract.
  destruct (covered (tabblock20 src)) as [pops|]; rsimpl; [|done].
  destruct (bool_decide (tabblock20 src ≠ [])); rsimpl; [|done].
  destruct (bool_decide (pops ≠ [])); rsimpl; [|done].
  rewrite (compute_writes (geo_written src) put_geo)
    by (intros; apply process_geo_writes).
  destruct (traverse (geo_written src) (tabblock20 src)) as [gs|]; rsimpl; [|done].
  rewrite (compute_writes (pop_written src) put_pop)
    by (intros; apply process_pop_writes).
  by destruct (traverse (pop_written src) pops) as [ps|].
Qed.

Lemma merge_pop_agree st st' pf :
  (∀ p, p ∈ pf → pq_pop st !! p = pq_pop st' !! p) →
  merge_pop st pf = merge_pop st' pf.
Proof.
  intros Hagree. unfold merge_pop, read_parquet_pop. f_equal.
  apply traverse_ext_elem. intros p Hp. rewrite Hagree; [done|].
  by rewrite sorted_Permutation in Hp.
Qed.

Lemma merge_geo_agree st st' gf :
  (∀ p, p ∈ gf → pq_geo st !! p = pq_geo st' !! p) →
  merge_geo st gf = merge_geo st' gf.
Proof.
  intros Hagree. unfold merge_geo, read_parquet_geo. f_equal.
  apply traverse_ext_elem. intros p Hp. rewrite Hagree; [done|].
  by rewrite sorted_Permutation in Hp.
Qed.

(** The tail of [main] after the extraction, without the store it leaves. *)
Lemma main_tail_agree gf pf st1 st2 :
  merge_pop st1 pf = merge_pop st2 pf →
  merge_geo st1 gf = merge_geo st2 gf →
  (pop ← merge_pop st1 pf; geo ← merge_geo st1 gf;
   _ ← py_assert (known_divisions pop); _ ← py_assert (known_divisions geo);
   _ ← (if consistent (partitions geo) then Ok tt else Err RuntimeError : result unit);
   a ← read_parquet_pop (store_geo OUT_GEO geo (to_parquet_pop OUT_POP pop st1)) OUT_POP;
   _ ← py_assert (known_divisions a);
   b ← read_parquet_geo (store_geo OUT_GEO geo (to_parquet_pop OUT_POP pop st1)) OUT_GEO;
   _ ← py_assert (known_divisions b);
   Ok (gf, pf, pop, geo, a, b))
  = (pop ← merge_pop st2 pf; geo ← merge_geo st2 gf;
     _ ← py_assert (known_divisions pop); _ ← py_assert (known_divisions geo);
     _ ← (if consistent (partitions geo) then Ok tt else Err RuntimeError : result unit);
     a ← read_parquet_pop (store_geo OUT_GEO geo (to_parquet_pop OUT_POP pop st2)) OUT_POP;
     _ ← py_assert (known_divisions a);
     b ← read_parquet_geo (store_geo OUT_GEO geo (to_parquet_pop OUT_POP pop st2)) OUT_GEO;
     _ ← py_assert (known_divisions b);
     Ok (gf, pf, pop, geo, a, b)).
Proof.
  intros -> ->.
  destruct (merge_pop st2 pf) as [p|]; rsimpl; [|done].
  destruct (merge_geo st2 gf) as [g|]; rsimpl; [|done].
  destruct (known_divisions p); rsimpl; [|done].
  destruct (known_divisions g); rsimpl; [|done].
  destruct (consistent (partitions g)); rsimpl; [|done].
  change (read_parquet_pop (store_geo OUT_GEO g (to_parquet_pop OUT_POP p st1)) OUT_POP)
    with (read_parquet_pop (to_parquet_pop OUT_POP p st1) OUT_POP).
  change (read_parquet_pop (store_geo OUT_GEO g (to_parquet_pop OUT_POP p st2)) OUT_POP)
    with (read_parquet_pop (to_parquet_pop OUT_POP p st2) OUT_POP).
  by rewrite !read_after_write_pop, !read_after_write_geo.
Qed.

Lemma main_view `{Coercion} src st :
  (r ← main src st; Ok (geo_files r, pop_files r, pop r, geo r, a r, b r))
  = '(gf, pf, st1) ← extract src st;
    pop ← merge_pop st1 pf; geo ← merge_geo st1 gf;
    _ ← py_assert (known_divisions pop); _ ← py_assert (known_divisions geo);
    _ ← (if consistent (partitions geo) then Ok tt else Err RuntimeError : result unit);
    a ← read_parquet_pop (store_geo OUT_GEO geo (to_parquet_pop OUT_POP pop st1)) OUT_POP;
    _ ← py_assert (known_divisions a);
    b ← read_parquet_geo (store_geo OUT_GEO geo (to_parquet_pop OUT_POP pop st1)) OUT_GEO;
    _ ← py_assert (known_divisions b);
    Ok (gf, pf, pop, geo, a, b).
Proof.
  unfold main, to_parquet_geo.
  destruct (extract src st) as [[[gf pf] st1]|]; rsimpl; [|done].
  destruct (merge_pop st1 pf) as [p|]; rsimpl; [|done].
  destruct (merge_geo st1 gf) as [g|]; rsimpl; [|done].
  destruct (known_divisions p); rsimpl; [|done].
  destruct (known_divisions g); rsimpl; [|done].
  destruct (consistent (partitions g)); rsimpl; [|done].
  destruct (read_parquet_pop _ OUT_POP) as [ra|]; rsimpl; [|done].
  destruct (known_divisions ra); rsimpl; [|done].
  destruct (read_parquet_geo _ OUT_GEO) as [rb|]; rsimpl; [|done].
  by destruct (known_divisions rb).
Qed.

(** X11: what is already stored under [tmp/] and [outputs/] has no part in a
    run.  The outcome of [main] (the output paths, the two merged tables and
    the two tables read back, or the exception) is the one obtained from an
    empty store; and a run that completes leaves every dataset other than
    the unit datasets it wrote and its two outputs as it found it. *)
Theorem main_ignores_the_initial_store `{Coercion} src st :
  (r ← main src st; Ok (geo_files r, pop_files r, pop r, geo r, a r, b r))
  = (r ← main src empty_store; Ok (geo_files r, pop_files r, pop r, geo r, a r, b r)) ∧
  (∀ r, main src st = Ok r →
     (∀ p, p ∉ pop_files r → p ≠ OUT_POP → pq_pop (final r) !! p = pq_pop st !! p) ∧
     (∀ p, p ∉ geo_files r → p ≠ OUT_GEO → pq_geo (final r) !! p = pq_geo st !! p)).
Proof.
  split.
  - rewrite !main_view, !extract_eq.
    destruct (covered (tabblock20 src)) as [pops|]; rsimpl; [|done].
    destruct (bool_decide (tabblock20 src ≠ [])); rsimpl; [|done].
    destruct (bool_decide (pops ≠ [])); rsimpl; [|done].
    destruct (traverse (geo_written src) (tabblock20 src)) as [gs|]; rsimpl; [|done].
    destruct (traverse (pop_written src) pops) as [ps|]; rsimpl; [|done].
    apply main_tail_agree.
    + apply merge_pop_agree. intros p Hp.
      rewrite !(proj1 (pq_pop_foldl_put_pop _ _)). by apply foldl_insert_agree.
    + apply merge_geo_agree. intros p Hp.
      rewrite !(proj2 (pq_pop_foldl_put_pop _ _)), !(proj1 (pq_geo_foldl_put_geo _ _)).
      by apply foldl_insert_agree.
  - intros r Hm. apply main_Ok in Hm as (st1 & He & _ & _ & _ & _ & Hfin & _).
    apply extract_Ok in He as (pops & gs & ps & _ & _ & _ & _ & Egf & Epf & Eg & Ep).
    rewrite Hfin. split; intros p Hp Hout.
    + change (pq_pop (store_geo OUT_GEO (geo r) (to_parquet_pop OUT_POP (pop r) st1)))
        with (pq_pop (to_parquet_pop OUT_POP (pop r) st1)).
      rewrite pq_pop_to_parquet_pop, lookup_insert_ne by done.
      rewrite Ep. apply foldl_insert_lookup_notin. by rewrite <- Epf.
    + rewrite pq_geo_store_geo, lookup_insert_ne by done.
      change (pq_geo (to_parquet_pop OUT_POP (pop r) st1)) with (pq_geo st1).
      rewrite Eg. apply foldl_insert_lookup_notin. by rewrite <- Egf.
Qed.

(** ** Unit datasets read back *)






(** ** The columns of a geometry dataset *)

Lemma labels_filter {C} (P : string → Prop)
    (D1 : ∀ c : string * list C, Decision (P c.1)) (D2 : ∀ l, Decision (P l))
    (df : Frame C) :
  labels (@filter _ _ _ (fun c : string * list C => P c.1) D1 df)
  = @filter _ _ _ P D2 (labels df).
Proof.
  unfold labels. induction df as [|c df IH]; [done|].
  rewrite fmap_cons. destruct (D2 c.1).
  - rewrite (filter_cons_True P), (filter_cons_True (fun c0 : string * list C => P c0.1))
      by done.
    rewrite fmap_cons. by f_equal.
  - by rewrite (filter_cons_False P), (filter_cons_False (fun c0 : string * list C => P c0.1))
      by done.
Qed.

Lemma drop_columns_labels {C} cols (df df' : Frame C) :
  drop_columns cols df = Ok df' → labels df' = filter (fun l => l ∉ cols) (labels df).
Proof.
  unfold drop_columns. case_bool_decide; [|done]. intros [= <-].
  apply (labels_filter (fun l => l ∉ cols)).
Qed.

Lemma rename_labels {C} (f : string → string) (df : Frame C) :
  labels (rename f df) = f <$> labels df.
Proof. unfold labels, rename. by rewrite <- !list_fmap_compose. Qed.

Lemma astype_labels `{Coercion} dts (df : Frame raw_cell) df' :
  astype dts df = Ok df' → labels df' = labels df.
Proof.
  unfold astype. case_bool_decide as Hin; [|done]. clear Hin.
  intros Ht%traverse_Ok_Forall2.
  unfold labels. induction Ht as [|c c' df df' Hc _ IH]; [done|].
  rewrite !fmap_cons, IH. f_equal. clear -Hc.
  destruct (traverse _ c.2); rsimpl in Hc; [|done]. by injection Hc as <-.
Qed.

Lemma set_index_columns label (df : Frame cell) gdf :
  set_index label df = Ok gdf →
  columns gdf = filter (fun c : string * list cell => c.1 ≠ label) df.
Proof.
  unfold set_index. destruct (filter _ df) as [|col cols]; [done|].
  intros Hk. inv_ok Hk. by subst gdf.
Qed.

Lemma assign_to_numeric_elem `{Coercion} label gdf gdf' c' :
  assign_to_numeric label gdf = Ok gdf' → c' ∈ columns gdf' →
  ∃ c, c ∈ columns gdf ∧ c'.1 = c.1 ∧ (c.1 ≠ label → c' = c) ∧
       (c.1 = label → traverse to_numeric_cell c.2 = Ok c'.2).
Proof.
  unfold assign_to_numeric.
  destruct (filter _ (columns gdf)) as [|col [|]] eqn:E; [done| |done].
  intros Hk Hc'. inv_ok Hk. subst gdf'. cbn [columns] in Hc'.
  apply list_elem_of_fmap in Hc' as (c & -> & Hc). exists c.
  case_bool_decide as Hl; (split; [done|]); (split; [done|]); split; try done.
  intros _. cbn [snd].
  assert (c ∈ filter (fun c : string * list cell => c.1 = label) (columns gdf)) as Hin
    by by apply list_elem_of_filter.
  rewrite E in Hin. apply list_elem_of_singleton in Hin. by subst c.
Qed.

Lemma assign_to_numeric_labels `{Coercion} label gdf gdf' :
  assign_to_numeric label gdf = Ok gdf' → labels (columns gdf') = labels (columns gdf).
Proof.
  unfold assign_to_numeric.
  destruct (filter _ (columns gdf)) as [|col [|]]; [done| |done].
  intros Hk. inv_ok Hk. subst gdf'. cbn [columns]. unfold labels.
  rewrite <- list_fmap_compose. apply list_fmap_ext. intros i c _.
  cbn. by case_bool_decide.
Qed.

(** The labels of the normalised frame. *)
Lemma geo_frame_labels `{Coercion} df gdf :
  geo_frame df = Ok gdf →
  labels (columns gdf)
  = filter (fun l => l ≠ "GEOID")
           (Py.rstrip "20" <$> filter (fun l => l ∉ dropped_columns) (labels df)).
Proof.
  unfold geo_frame. intros Hg. inv_ok Hg.
  apply assign_to_numeric_labels in Hg. apply assign_to_numeric_labels in Hx2.
  apply set_index_columns in Hx1. apply astype_labels in Hx0.
  apply drop_columns_labels in Hx.
  rewrite Hg, Hx2, Hx1.
  etrans; [apply (labels_filter (fun l => l ≠ "GEOID"))|].
  by rewrite Hx0, rename_labels, Hx.
Qed.

(** Every column of the normalised frame is as long as the file has records. *)
Lemma geo_frame_lengths `{Coercion} shp gdf :
  geo_frame (frame_of shp) = Ok gdf → rectangular shp →
  length (index gdf) = length (geometry shp) ∧
  Forall (fun c : string * list cell => length c.2 = length (geometry shp)) (columns gdf).
Proof.
  unfold geo_frame. intros Hg Hrect. inv_ok Hg.
  assert (∀ c, c ∈ x0 → length c.2 = length (geometry shp)) as H3.
  { intros c Hc. destruct (astype_elem _ _ _ _ Hx0 Hc) as (c1 & Hc1 & _ & Hcells).
    apply traverse_Ok_length in Hcells. rewrite Hcells.
    apply rename_elem in Hc1 as (c0 & Hc0 & _ & ->).
    apply (drop_columns_Ok _ _ _ Hx) in Hc0.
    apply frame_of_elem in Hc0 as [(f & Hf & ->)| ->]; cbn [snd]; rewrite length_fmap; [|done].
    unfold rectangular in Hrect. rewrite Forall_forall in Hrect. by apply Hrect. }
  assert (∀ c, c ∈ columns x1 → length c.2 = length (geometry shp)) as H4.
  { intros c Hc. rewrite (set_index_columns _ _ _ Hx1) in Hc.
    apply list_elem_of_filter in Hc as [_ Hc]. by apply H3. }
  assert (∀ c, c ∈ columns x2 → length c.2 = length (geometry shp)) as H5.
  { intros c' Hc'. destruct (assign_to_numeric_elem _ _ _ _ Hx2 Hc') as (c & Hc & _ & Hne & Heq).
    destruct (decide (c.1 = "INTPTLON")) as [Hl|Hl].
    - apply Heq, traverse_Ok_length in Hl. rewrite Hl. by apply H4.
    - rewrite (Hne Hl). by apply H4. }
  split.
  - rewrite (assign_to_numeric_index _ _ _ Hg), (assign_to_numeric_index _ _ _ Hx2).
    apply set_index_Ok in Hx1 as (col & Hcol & _ & Hkeys).
    apply traverse_Ok_length in Hkeys. rewrite Hkeys. by apply H3.
  - apply Forall_forall. intros c' Hc'.
    destruct (assign_to_numeric_elem _ _ _ _ Hg Hc') as (c & Hc & _ & Hne & Heq).
    destruct (decide (c.1 = "INTPTLAT")) as [Hl|Hl].
    + apply Heq, traverse_Ok_length in Hl. rewrite Hl. by apply H5.
    + rewrite (Hne Hl). by apply H5.
Qed.

Lemma rows_of_lookup gdf row :
  row ∈ rows_of gdf →
  ∃ i : nat, (i < length (index gdf))%nat ∧
       row.2 = omap (fun c : string * list cell => pair c.1 <$> c.2 !! i) (columns gdf).
Proof.
  unfold rows_of. intros Hrow. apply list_elem_of_lookup in Hrow as [i Hi].
  rewrite list_lookup_imap in Hi. destruct (index gdf !! i) as [k|] eqn:Hk; [|done].
  injection Hi as <-. exists i. split; [|done]. by eapply lookup_lt_Some.
Qed.

Lemma rows_of_labels gdf row :
  Forall (fun c : string * list cell => length c.2 = length (index gdf)) (columns gdf) →
  row ∈ rows_of gdf → row.2.*1 = labels (columns gdf).
Proof.
  intros Hlen (i & Hi & ->)%rows_of_lookup. unfold labels.
  induction Hlen as [|c cs Hc _ IH]; [done|]. cbn [omap list_omap].
  destruct (lookup_lt_is_Some_2 c.2 i) as [v Hv]; [by rewrite Hc|].
  rewrite Hv. cbn [fmap option_fmap option_map]. rewrite !fmap_cons. by f_equal.
Qed.

(** What [process_geo] stores: the sorted rows of the normalised frame. *)
Lemma process_geo_stores `{Coercion} src st file out st' :
  process_geo src st file = Ok (out, st') →
  ∃ shp gdf rows,
    shapefiles src !! file = Some shp ∧ geo_frame (frame_of shp) = Ok gdf ∧
    pq_geo st' !! out = Some [rows] ∧ rows ≡ₚ rows_of gdf.
Proof.
  intros (shp & gdf & F & Hshp & Hgdf & _ & -> & ->)%process_geo_Ok.
  destruct (from_pandas_partitions (rows_of gdf)) as (data & Hparts & Hperm & _).
  exists shp, gdf, data. repeat split; try done.
  by rewrite pq_geo_store_geo, lookup_insert_eq, Hparts.
Qed.

(** X13: the columns of a geometry dataset.  For an archive whose fields all
    have one value per record, every row that [process_geo] stores carries the
    labels of the archive in their order, without the six dropped fields,
    each with its trailing 2s and 0s stripped, and without GEOID, which became
    the index. *)
Theorem process_geo_row_labels `{Coercion} src st file out st' shp :
  process_geo src st file = Ok (out, st') →
  shapefiles src !! file = Some shp → rectangular shp →
  ∃ rows, pq_geo st' !! out = Some [rows] ∧
    ∀ row, row ∈ rows →
      row.2.*1 = filter (fun l => l ≠ "GEOID")
                   (Py.rstrip "20" <$>
                      filter (fun l => l ∉ dropped_columns) (labels (frame_of shp))).
Proof.
  intros (shp' & gdf & rows & Hshp & Hgdf & Hst & Hperm)%process_geo_stores Hshp' Hrect.
  assert (shp' = shp) as -> by congruence.
  exists rows. split; [done|]. intros row Hrow. rewrite Hperm in Hrow.
  destruct (geo_frame_lengths _ _ Hgdf Hrect) as [Hi Hlen].
  rewrite <- (geo_frame_labels _ _ Hgdf). apply rows_of_labels; [|done].
  by rewrite Hi.
Qed.

Lemma process_geo_row_labels_witness :
  ∃ out st',
    process_geo (H := Sample.coercion) Sample.src0 empty_store Sample.ca_zip
    = Ok (out, st') ∧
    ∃ rows, pq_geo st' !! out = Some [rows] ∧
      ∀ row, row ∈ rows →
        row.2.*1 = filter (fun l => l ≠ "GEOID")
                     (Py.rstrip "20" <$>
                        filter (fun l => l ∉ dropped_columns)
                               (labels (frame_of Sample.ca_shapefile))).
Proof.
  eexists _, _. split; [vm_compute; reflexivity|].
  apply (process_geo_row_labels (H := Sample.coercion) Sample.src0 empty_store
           Sample.ca_zip _ _ Sample.ca_shapefile).
  - vm_compute. reflexivity.
  - vm_compute. reflexivity.
  - apply (bool_decide_unpack _). vm_compute. exact I.
Defined.

(** ** The values of a geometry dataset *)





(** ** When the assertion of [process_pop] holds *)

Lemma merge_one_fst right g :
  (length (filter (fun s => Seg1.LOGRECNO s = Geo.LOGRECNO g) right) ≤ 1)%nat →
  (merge_one right g).*1 = [g].
Proof.
  unfold merge_one. destruct (filter _ right) as [|s0 [|s1 ms]]; simpl; [done..|lia].
Qed.

Lemma merge_one_NoDup {K} (f : Geo.row → K) right g :
  NoDup ((fun m : Geo.row * option Seg1.row => f m.1) <$> merge_one right g) →
  (length (filter (fun s => Seg1.LOGRECNO s = Geo.LOGRECNO g) right) ≤ 1)%nat.
Proof.
  unfold merge_one. destruct (filter _ right) as [|s0 [|s1 ms]]; simpl; [lia..|].
  intros Hnd. apply NoDup_cons in Hnd as [Hnotin _]. destruct Hnotin. left.
Qed.

Lemma merge_left_fst left right :
  (∀ g, g ∈ left →
     (length (filter (fun s => Seg1.LOGRECNO s = Geo.LOGRECNO g) right) ≤ 1)%nat) →
  (merge_left left right).*1 = left.
Proof.
  unfold merge_left. induction left as [|g left IH]; intros Hone; [done|].
  rewrite bind_cons, fmap_app, merge_one_fst by (apply Hone; left).
  simpl. f_equal. apply IH. intros g' Hg'. apply Hone. by right.
Qed.

Lemma merge_left_NoDup {K} (f : Geo.row → K) left right :
  NoDup ((fun m : Geo.row * option Seg1.row => f m.1) <$> merge_left left right) →
  ∀ g, g ∈ left →
    (length (filter (fun s => Seg1.LOGRECNO s = Geo.LOGRECNO g) right) ≤ 1)%nat.
Proof.
  unfold merge_left. induction left as [|g left IH]; intros Hnd g' Hg'.
  - by apply elem_of_nil in Hg'.
  - rewrite bind_cons, fmap_app in Hnd. apply NoDup_app in Hnd as (H1 & _ & H2).
    apply elem_of_cons in Hg' as [->|Hg']; [by eapply merge_one_NoDup | by apply IH].
Qed.

(** The index of [block_df] is unique exactly when the block-level records
    have distinct keys and none of them matches two rows of the segment. *)
Lemma block_df_unique geo_df seg_1_df :
  NoDup (keys (block_df geo_df seg_1_df)) ↔
  NoDup ((fun g => normalize_key (Geo.GEOID g)) <$> block_level geo_df) ∧
  ∀ g, g ∈ block_level geo_df →
    (length (filter (fun s => Seg1.LOGRECNO s = Geo.LOGRECNO g) seg_1_df) ≤ 1)%nat.
Proof.
  rewrite block_df_keys.
  assert (∀ ms : list (Geo.row * option Seg1.row),
            (fun m : Geo.row * option Seg1.row => normalize_key (Geo.GEOID m.1)) <$> ms
            = (fun g => normalize_key (Geo.GEOID g)) <$> ms.*1) as Hfst
    by (intros ms; by rewrite <- list_fmap_compose).
  split.
  - intros Hnd. split.
    + rewrite <- (merge_left_single (fun g => normalize_key (Geo.GEOID g)) _ seg_1_df Hnd).
      by rewrite <- Hfst.
    + by apply (merge_left_NoDup (fun g => normalize_key (Geo.GEOID g))).
  - intros [Hnd Hone]. by rewrite Hfst, merge_left_fst.
Qed.

(** X15: what the assertion of [process_pop] means for the files.  With the
    summary table and both files of the unit read, a call that returns had
    block-level records with pairwise distinct normalised GEOIDs, each
    matching at most one row of the segment on LOGRECNO; and a call that raises
    AssertionError had two block-level records with one normalised GEOID, or
    a block-level record that matches two rows of the segment. *)
Theorem process_pop_assertion src st file FIPS ABBR seg_1_df geo_df :
  FIPS_of file = Ok FIPS → statelookup !! FIPS = Some ABBR →
  summary_table src = true →
  pl_seg1 src !! state_1 ABBR = Some seg_1_df →
  pl_geo src !! state_geo ABBR = Some geo_df →
  let clean :=
    NoDup ((fun g => normalize_key (Geo.GEOID g)) <$> block_level geo_df) ∧
    ∀ g, g ∈ block_level geo_df →
      (length (filter (fun s => Seg1.LOGRECNO s = Geo.LOGRECNO g) seg_1_df) ≤ 1)%nat in
  (∀ out st', process_pop src st file = Ok (out, st') → clean) ∧
  (process_pop src st file = Err AssertionError → ¬ clean).
Proof.
  intros H1 H2 H3 H4 H5 clean. subst clean.
  rewrite (process_pop_run _ _ _ _ _ _ _ H1 H2 H3 H4 H5).
  unfold is_unique. case_bool_decide as Hnd; split.
  - intros out st' _. by apply block_df_unique.
  - by intros [=].
  - by intros out st' [=].
  - intros _ Hclean. by apply Hnd, block_df_unique.
Qed.

Lemma process_pop_assertion_witness :
  let clean (geo_df : list Geo.row) (seg_1_df : list Seg1.row) :=
    NoDup ((fun g => normalize_key (Geo.GEOID g)) <$> block_level geo_df) ∧
    ∀ g, g ∈ block_level geo_df →
      (length (filter (fun s => Seg1.LOGRECNO s = Geo.LOGRECNO g) seg_1_df) ≤ 1)%nat in
  ((∀ out st', process_pop Sample.src0 empty_store Sample.ca_zip = Ok (out, st') →
               clean Sample.ca_geo Sample.ca_seg1) ∧
   (process_pop Sample.src0 empty_store Sample.ca_zip = Err AssertionError →
    ¬ clean Sample.ca_geo Sample.ca_seg1)) ∧
  ((∀ out st', process_pop Sample.src_dup_records empty_store Sample.ca_zip
               = Ok (out, st') →
               clean Sample.ca_geo (Sample.ca_seg1 ++ [Sample.seg1_row 2 [13]])) ∧
   (process_pop Sample.src_dup_records empty_store Sample.ca_zip = Err AssertionError →
    ¬ clean Sample.ca_geo (Sample.ca_seg1 ++ [Sample.seg1_row 2 [13]]))).
Proof.
  split.
  - apply (process_pop_assertion Sample.src0 empty_store Sample.ca_zip "06" "CA"
             Sample.ca_seg1 Sample.ca_geo); vm_compute; reflexivity.
  - apply (process_pop_assertion Sample.src_dup_records empty_store Sample.ca_zip "06" "CA"
             (Sample.ca_seg1 ++ [Sample.seg1_row 2 [13]]) Sample.ca_geo);
      vm_compute; reflexivity.
Defined.

(** ** What the two outputs hold *)

Lemma merged_parts {X} (W : string → result (string * list (list X)))
    (m0 : gmap string (list (list X))) files ws paths parts :
  Forall2 (fun file w => W file = Ok w) files ws →
  NoDup ws.*1 → paths ≡ₚ ws.*1 →
  Forall2 (fun p data => foldl (fun m w => <[w.1 := w.2]> m) m0 ws !! p = Some [data])
          paths parts →
  ∀ rows, rows ∈ parts ↔ ∃ file out, file ∈ files ∧ W file = Ok (out, [rows]).
Proof.
  intros HF Hnd Hperm Hpu rows. split.
  - intros Hrows.
    assert (paths ⊆ ws.*1) as Hsub by (intros x; by rewrite Hperm).
    destruct (written_partition _ _ _ _ rows Hpu Hsub Hrows) as (p & Hw).
    apply list_elem_of_lookup in Hw as [i Hi].
    destruct (Forall2_lookup_r _ _ _ _ _ HF Hi) as (file & Hfile & HW).
    exists file, p. split; [by eapply list_elem_of_lookup_2 | done].
  - intros (file & out & Hfile & HW).
    apply list_elem_of_lookup in Hfile as [i Hi].
    destruct (Forall2_lookup_l _ _ _ _ _ HF Hi) as (w & Hw & HW').
    assert (w = (out, [rows])) as -> by congruence.
    apply list_elem_of_lookup_2 in Hw.
    assert (out ∈ paths) as Hout.
    { rewrite Hperm. apply list_elem_of_fmap. by exists (out, [rows]). }
    apply list_elem_of_lookup in Hout as [j Hj].
    destruct (Forall2_lookup_l _ _ _ _ _ Hpu Hj) as (data & Hdata & Hl).
    assert (out ∈ ws.*1) as Hout' by (apply list_elem_of_fmap; by exists (out, [rows])).
    destruct (foldl_insert_lookup m0 ws out Hout') as (d & Hd & Hl').
    pose proof (eq_trans (eq_sym Hl') Hl) as Heq. apply (inj Some) in Heq. subst d.
    pose proof (NoDup_fst_functional _ _ _ _ Hnd Hd Hw) as Heq.
    injection Heq as ->. by eapply list_elem_of_lookup_2.
Qed.

(** X16: what the two outputs hold.  After a completed run, the partitions
    stored at the population output are exactly the datasets [process_pop]
    writes for the covered archives, one each, and the partitions stored at
    the geometry output are exactly the datasets [process_geo] writes for the
    archives: no unit is left out and nothing else is added. *)
Theorem outputs_hold_the_unit_datasets `{Coercion} src st r :
  main src st = Ok r →
  ∃ pops pparts gparts,
    covered (tabblock20 src) = Ok pops ∧
    pq_pop (final r) !! OUT_POP = Some pparts ∧
    pq_geo (final r) !! OUT_GEO = Some gparts ∧
    (∀ rows, rows ∈ pparts ↔
       ∃ file out, file ∈ pops ∧ pop_written src file = Ok (out, [rows])) ∧
    (∀ rows, rows ∈ gparts ↔
       ∃ file out, file ∈ tabblock20 src ∧ geo_written src file = Ok (out, [rows])).
Proof.
  intros Hm.
  destruct (main_Ok_merged _ _ _ Hm)
    as (st1' & pops & gs & ps & Hc & HFg & HFp & Egf & Epf & Eg & Ep & Hpop & Hgeo).
  destruct Hpop as (Hpu & _ & Hpn & _). destruct Hgeo as (Hgu & _ & Hgn & _).
  apply main_Ok in Hm as (st1 & He & _ & _ & _ & _ & Hfin & _).
  exists pops, (partitions (pop r)), (partitions (geo r)).
  split; [done|]. rewrite Hfin. cbn [store_geo to_parquet_pop pq_pop pq_geo].
  rewrite !lookup_insert_eq. split; [done|]. split; [done|]. split.
  - rewrite Ep in Hpu.
    apply (merged_parts (pop_written src) (pq_pop st) pops ps (sorted (pop_files r)) _ HFp); [by rewrite <- Epf| |exact Hpu].
    by rewrite sorted_Permutation, Epf.
  - rewrite Eg in Hgu.
    apply (merged_parts (geo_written src) (pq_geo st) (tabblock20 src) gs
             (sorted (geo_files r)) _ HFg); [by rewrite <- Egf| |exact Hgu].
    by rewrite sorted_Permutation, Egf.
Qed.

Lemma outputs_hold_the_unit_datasets_witness :
  ∃ r, main (H := Sample.coercion) Sample.src0 empty_store = Ok r ∧
    ∃ pops pparts gparts,
      covered (tabblock20 Sample.src0) = Ok pops ∧
      pq_pop (final r) !! OUT_POP = Some pparts ∧
      pq_geo (final r) !! OUT_GEO = Some gparts ∧
      (∀ rows, rows ∈ pparts ↔
         ∃ file out, file ∈ pops ∧ pop_written Sample.src0 file = Ok (out, [rows])) ∧
      (∀ rows, rows ∈ gparts ↔
         ∃ file out, file ∈ tabblock20 Sample.src0 ∧
                     geo_written (H := Sample.coercion) Sample.src0 file = Ok (out, [rows])).
Proof.
  eexists. split; [vm_compute; reflexivity|].
  eapply (outputs_hold_the_unit_datasets (H := Sample.coercion) Sample.src0 empty_store).
  vm_compute. reflexivity.
Defined.

(** ** The fields an archive must have *)

Lemma drop_columns_elem {C} cols (df df' : Frame C) c :
  drop_columns cols df = Ok df' → c ∈ df' → c ∈ df ∧ c.1 ∉ cols.
Proof.
  unfold drop_columns. case_bool_decide; [|done]. intros [= <-] Hc.
  apply list_elem_of_filter in Hc as [? ?]. done.
Qed.

Lemma assign_to_numeric_Ok `{Coercion} label gdf gdf' :
  assign_to_numeric label gdf = Ok gdf' → ∃ col, col ∈ columns gdf ∧ col.1 = label.
Proof.
  unfold assign_to_numeric.
  destruct (filter _ (columns gdf)) as [|col [|]] eqn:E; [done| |done].
  intros _. exists col.
  assert (col ∈ filter (fun c : string * list cell => c.1 = label) (columns gdf)) as Hin
    by (rewrite E; left).
  apply list_elem_of_filter in Hin as [? ?]. done.
Qed.

(** A column present after [astype] stems from a field of the archive that is
    not dropped, unless it is the geometry. *)
Lemma coerced_column_origin `{Coercion} shp df1 df3 c :
  drop_columns dropped_columns (frame_of shp) = Ok df1 →
  astype dtypes (rename (Py.rstrip "20") df1) = Ok df3 →
  c ∈ df3 → c.1 ≠ "geometry" →
  ∃ f, f ∈ fields shp ∧ Py.rstrip "20" f.1 = c.1 ∧ f.1 ∉ dropped_columns.
Proof.
  intros Hd Ha Hc Hne.
  destruct (astype_elem _ _ _ _ Ha Hc) as (c1 & Hc1 & Hl1 & _).
  apply rename_elem in Hc1 as (c0 & Hc0 & Hl0 & _).
  destruct (drop_columns_elem _ _ _ _ Hd Hc0) as [Hin Hnot].
  apply frame_of_elem in Hin as [(f & Hf & ->)| ->].
  - exists f. cbn [fst] in *. split; [done|]. split; [by rewrite Hl1, Hl0 | done].
  - destruct Hne. by rewrite Hl1, Hl0.
Qed.

Lemma renamed_label_origin `{Coercion} shp df1 l :
  drop_columns dropped_columns (frame_of shp) = Ok df1 →
  l ∈ labels (rename (Py.rstrip "20") df1) → l ≠ "geometry" →
  ∃ f, f ∈ fields shp ∧ Py.rstrip "20" f.1 = l ∧ f.1 ∉ dropped_columns.
Proof.
  intros Hd Hl Hne. apply list_elem_of_fmap in Hl as (c1 & -> & Hc1).
  apply rename_elem in Hc1 as (c0 & Hc0 & Hl0 & _).
  destruct (drop_columns_elem _ _ _ _ Hd Hc0) as [Hin Hnot].
  apply frame_of_elem in Hin as [(f & Hf & ->)| ->].
  - exists f. cbn [fst] in *. by rewrite Hl0.
  - destruct Hne. by rewrite Hl0.
Qed.

(** X17: the fields an archive must have.  [process_geo] raises KeyError when
    the archive lacks one of the six fields it drops; and when it returns, the
    archive has, among the fields that are kept, one whose stripped label is
    STATEFP, COUNTYFP, TRACTCE, BLOCKCE, GEOID, INTPTLON and INTPTLAT each. *)
Theorem process_geo_required_fields `{Coercion} src st file shp :
  shapefiles src !! file = Some shp →
  ((∃ l, l ∈ dropped_columns ∧ l ∉ labels (frame_of shp)) →
   process_geo src st file = Err KeyError) ∧
  (∀ out st', process_geo src st file = Ok (out, st') →
     ∀ l, l ∈ ["STATEFP"; "COUNTYFP"; "TRACTCE"; "BLOCKCE"; "GEOID"; "INTPTLON"; "INTPTLAT"] →
       ∃ f, f ∈ fields shp ∧ Py.rstrip "20" f.1 = l ∧ f.1 ∉ dropped_columns).
Proof.
  intros Hshp. split.
  - intros (l & Hl & Hnot). unfold process_geo, read_file. rewrite Hshp. rsimpl.
    unfold geo_frame, drop_columns. rewrite bool_decide_eq_false_2; [done|].
    rewrite Forall_forall. intros Hall. by apply Hnot, (Hall l).
  - intros out st' (shp' & gdf & F & Hshp' & Hg & _)%process_geo_Ok l Hl.
    assert (shp' = shp) as -> by congruence.
    unfold geo_frame in Hg. inv_ok Hg.
    change (drop_columns dropped_columns (frame_of shp) = Ok x) in Hx.
    assert (l ≠ "geometry") as Hne.
    { intros ->. revert Hl. apply (bool_decide_eq_false_1 _). vm_compute. reflexivity. }
    assert (l ∈ dtypes.*1 ∨ l = "GEOID" ∨ l = "INTPTLON" ∨ l = "INTPTLAT") as Hcase.
    { rewrite !elem_of_cons in Hl. unfold dtypes. rewrite !fmap_cons, !elem_of_cons.
      cbn [fst]. tauto. }
    destruct Hcase as [Hd|[->|[->| ->]]].
    + pose proof Hx0 as Ha. unfold astype in Ha. case_bool_decide as Hall; [|done].
      apply list_elem_of_fmap in Hd as (d & -> & Hd). rewrite Forall_forall in Hall.
      apply (renamed_label_origin shp x); [done| |done]. by apply (Hall d).
    + apply set_index_Ok in Hx1 as (col & Hcol & Hlabel & _).
      destruct (coerced_column_origin shp x x0 col Hx Hx0 Hcol) as (f & ? & ? & ?);
        [by rewrite Hlabel|].
      exists f. by rewrite <- Hlabel.
    + apply assign_to_numeric_Ok in Hx2 as (col & Hcol & Hlabel).
      rewrite (set_index_columns _ _ _ Hx1) in Hcol.
      apply list_elem_of_filter in Hcol as [_ Hcol].
      destruct (coerced_column_origin shp x x0 col Hx Hx0 Hcol) as (f & ? & ? & ?);
        [by rewrite Hlabel|].
      exists f. by rewrite <- Hlabel.
    + apply assign_to_numeric_Ok in Hg as (col & Hcol & Hlabel).
      destruct (assign_to_numeric_elem _ _ _ _ Hx2 Hcol) as (c & Hc & Hcl & _).
      rewrite (set_index_columns _ _ _ Hx1) in Hc.
      apply list_elem_of_filter in Hc as [_ Hc].
      destruct (coerced_column_origin shp x x0 c Hx Hx0 Hc) as (f & ? & ? & ?);
        [by rewrite <- Hcl, Hlabel|].
      exists f. by rewrite <- Hlabel, Hcl.
Qed.

Lemma process_geo_required_fields_witness :
  ((∃ l, l ∈ dropped_columns ∧ l ∉ labels (frame_of Sample.ca_shapefile)) →
   process_geo (H := Sample.coercion) Sample.src0 empty_store Sample.ca_zip
   = Err KeyError) ∧
  (∀ out st',
     process_geo (H := Sample.coercion) Sample.src0 empty_store Sample.ca_zip
     = Ok (out, st') →
     ∀ l, l ∈ ["STATEFP"; "COUNTYFP"; "TRACTCE"; "BLOCKCE"; "GEOID"; "INTPTLON"; "INTPTLAT"] →
       ∃ f, f ∈ fields Sample.ca_shapefile ∧ Py.rstrip "20" f.1 = l ∧
            f.1 ∉ dropped_columns).
Proof.
  apply (process_geo_required_fields (H := Sample.coercion) Sample.src0 empty_store
           Sample.ca_zip Sample.ca_shapefile).
  vm_compute. reflexivity.
Defined.
